(** * nulstr-util: conversions between nulstrs and string vectors

    A shallow embedding of [src/basic/nulstr-util.c] (systemd) and the
    properties of its four functions [strv_parse_nulstr],
    [strv_split_nulstr], [strv_make_nulstr] and [nulstr_get].

    The C code is written against an allocator that may refuse any request.
    The embedding threads an allocator state through every function: the set
    of live blocks, the number of requests made so far and an oracle that
    decides each request.  A failed assertion or an access outside an object
    is the outcome [Abort].

    Sizes and offsets ([size_t]) are natural numbers.  Every sum the code
    forms is at most the size of one object plus one ([c + 1]) or the sizes
    of two objects plus one ([n + z + 2]); objects are no larger than
    [PTRDIFF_MAX], so these sums stay below [SIZE_MAX] and the arithmetic
    of the code does not wrap around. *)

From Stdlib Require Import Strings.Byte.
From stdpp Require Import base decidable option list gmap sets.

Local Open Scope nat_scope.
#[local] Set Warnings "-clear-no-such-hyp".

(** ** Bytes and C strings *)

#[global] Instance byte_eq_decision : EqDecision byte := byte_eq_dec.

(** The NUL byte, ['\0']. *)
Definition NUL : byte := x00.

(** [ENOMEM] of errno.h. *)
Definition ENOMEM : Z := 12%Z.

(** Position of the first NUL of [w], when there is one. *)
Fixpoint find_nul (w : list byte) : option nat :=
  match w with
  | [] => None
  | b :: w' => if decide (b = NUL) then Some 0 else S <$> find_nul w'
  end.

(** A string argument ([const char *]) is given by the bytes of its object
    that precede the final NUL of the object: the list [x] stands for the
    object [x ++ [NUL]].  As in C, the string ends at the first NUL. *)
Definition cstr := list byte.

(** [strlen(x)]. *)
Definition strlen (x : cstr) : nat := default (length x) (find_nul x).

(** The characters of the string [x], without its terminator. *)
Definition cstr_val (x : cstr) : list byte := take (strlen x) x.

(** [streq(a, b)]: [strcmp(a, b) == 0]. *)
Definition streq (a b : cstr) : bool := bool_decide (cstr_val a = cstr_val b).

(** ** Allocator state and outcomes *)

(** [live] holds the identifiers of the blocks that are allocated; [clock]
    counts the requests made so far; request number [k] is refused when
    [oracle k = None] and granted otherwise, [oracle k = Some e] giving the
    slack [e] by which a grown buffer exceeds the size asked for. *)
Record heap := Heap {
  live : gset nat;
  clock : nat;
  oracle : nat → option nat
}.

Inductive outcome (A : Type) :=
| Ok (a : A) (h : heap)   (* returned [a], leaving allocator state [h] *)
| Abort                   (* failed assertion, access out of bounds, bad free *)
| Spin.                   (* a loop used up its fuel *)
Arguments Ok {A} a h.
Arguments Abort {A}.
Arguments Spin {A}.

(** A computation: from an allocator state to an outcome. *)
Definition M (A : Type) : Type := heap → outcome A.

Definition ret {A} (a : A) : M A := fun h => Ok a h.
Definition abort {A} : M A := fun _ => Abort.
Definition spin {A} : M A := fun _ => Spin.
Definition bind {A B} (m : M A) (k : A → M B) : M B :=
  fun h => match m h with
           | Ok a h' => k a h'
           | Abort => Abort
           | Spin => Spin
           end.

Notation "'let*' x := m 'in' k" := (bind m (fun x => k))
  (at level 10, x pattern, m at level 100, k at level 200, only parsing).
Notation "'run' m 'in' k" := (bind m (fun _ => k))
  (at level 10, m at level 100, k at level 200, only parsing).

(** [assert(c)]. *)
Definition assert (c : bool) : M unit := if c then ret tt else abort.

(** One request to the allocator: the identifier of a block that was not
    live, with the slack granted, or [None] when the request is refused. *)
Definition request : M (option (nat * nat)) := fun h =>
  match oracle h (clock h) with
  | None => Ok None (Heap (live h) (S (clock h)) (oracle h))
  | Some e =>
      let a := fresh (live h) in
      Ok (Some (a, e)) (Heap ({[a]} ∪ live h) (S (clock h)) (oracle h))
  end.

(** [free(p)] for a non-null [p]; freeing a block that is not live aborts. *)
Definition release (a : nat) : M unit := fun h =>
  if decide (a ∈ live h)
  then Ok tt (Heap (live h ∖ {[a]}) (clock h) (oracle h))
  else Abort.

(** ** Allocated objects *)

(** A [char] buffer obtained from the allocator: its block and its cells,
    [None] being a cell that was never written. *)
Record chars := Chars { chars_id : nat; cells : list (option byte) }.

(** A [char*] array obtained from the allocator; a slot is [None] when it
    holds the null pointer. *)
Record strv := Strv { strv_id : nat; slots : list (option chars) }.

(** The string that starts at the first cell: the bytes up to the first NUL. *)
Fixpoint cells_str (cs : list (option byte)) : list byte :=
  match cs with
  | Some b :: cs' => if decide (b = NUL) then [] else b :: cells_str cs'
  | _ => []
  end.

(** The strings held by the slots up to the first null pointer. *)
Fixpoint slots_elems (sl : list (option chars)) : list (list byte) :=
  match sl with
  | Some c :: sl' => cells_str (cells c) :: slots_elems sl'
  | _ => []
  end.

(** The elements of a string vector, in order. *)
Definition strv_elems (v : strv) : list (list byte) := slots_elems (slots v).

(** The blocks reached from the slots up to the first null pointer. *)
Fixpoint slots_ids (sl : list (option chars)) : list nat :=
  match sl with
  | Some c :: sl' => chars_id c :: slots_ids sl'
  | _ => []
  end.

(** The blocks a string vector owns: its array and its strings. *)
Definition strv_ids (v : strv) : list nat := strv_id v :: slots_ids (slots v).

(** ** The helpers of alloc-util.h, memory-util.h and strv.h *)

(** Modelled from the spec: [new0(char*, n)] of alloc-util.h, the
    zero-initializing array allocation of section 6: [n] slots that all hold
    the null pointer, or the null pointer when the request is refused. *)
Definition new0_ptrs (n : nat) : M (option strv) :=
  let* r := request in
  ret (match r with
       | None => None
       | Some (a, _) => Some (Strv a (replicate n None))
       end).

(** Modelled from the spec: [new0(char, n)] of alloc-util.h, the same
    allocation for [n] bytes, all NUL. *)
Definition new0_chars (n : nat) : M (option chars) :=
  let* r := request in
  ret (match r with
       | None => None
       | Some (a, _) => Some (Chars a (replicate n (Some NUL)))
       end).

(** Modelled from the spec: [memdup_suffix0(p, n)] of memory-util.h, the
    owned-string duplication of section 6: a new buffer of [n + 1] bytes that
    holds the [n] bytes [src] followed by a NUL. *)
Definition memdup_suffix0 (src : list byte) : M (option chars) :=
  let* r := request in
  ret (match r with
       | None => None
       | Some (a, _) => Some (Chars a (Some <$> (src ++ [NUL])))
       end).

(** Modelled from the spec: [strv_free] of strv.h, which the
    [_cleanup_strv_free_] attribute runs on every path that leaves the scope:
    the strings up to the first null slot are freed, then the array. *)
Fixpoint free_strings (sl : list (option chars)) : M unit :=
  match sl with
  | Some c :: sl' => run release (chars_id c) in free_strings sl'
  | _ => ret tt
  end.

Definition strv_free (v : option strv) : M unit :=
  match v with
  | None => ret tt
  | Some v => run free_strings (slots v) in release (strv_id v)
  end.

(** [v[i] = x]: a store outside the array aborts. *)
Definition store_slot (v : strv) (i : nat) (x : option chars) : M strv :=
  if decide (i < length (slots v))
  then ret (Strv (strv_id v) (<[i := x]> (slots v)))
  else abort.

(** ** Reading the caller's memory *)

(** [s[p]]: a read outside the object aborts. *)
Definition load (s : list byte) (p : nat) : M byte :=
  match s !! p with
  | Some b => ret b
  | None => abort
  end.

(** The [n] bytes at [s + p]; a window that leaves the object aborts. *)
Definition window (s : list byte) (p n : nat) : M (list byte) :=
  if decide (p + n ≤ length s) then ret (take n (drop p s)) else abort.

(** ** strv_parse_nulstr *)

(** Lines 24-26, the loop that counts the NUL bytes of [s[0..l)] in [c], run
    from position [p] for [k] more bytes. *)
Fixpoint count_nuls (s : list byte) (p k c : nat) : M nat :=
  match k with
  | 0 => ret c
  | S k' =>
      let* b := load s p in
      count_nuls s (S p) k' (if decide (b = NUL) then S c else c)
  end.

(** Lines 35-50, the loop that fills [v].  [inl tt]: the function returned
    NULL from inside the loop, after the cleanup of [v]; [inr (v, i)]: the
    loop was left, by its condition or by [break]. *)
Fixpoint fill (fuel : nat) (s : list byte) (l p i : nat) (v : strv)
  : M (unit + strv * nat) :=
  match fuel with
  | 0 => spin
  | S fuel' =>
      if decide (p < l) then
        let* w := window s p (l - p) in
        let e := find_nul w in                       (* memchr(p, 0, s + l - p) *)
        let* x := memdup_suffix0 (take (default (l - p) e) w) in
        let* v := store_slot v i x in
        match x with
        | None => run strv_free (Some v) in ret (inl tt)
        | Some _ =>
            let i := S i in
            match e with
            | None => ret (inr (v, i))
            | Some k => fill fuel' s l (p + k + 1) i v
            end
        end
      else ret (inr (v, i))
  end.

Definition strv_parse_nulstr (s : option (list byte)) (l : nat)
  : M (option strv) :=
  run assert (bool_decide (is_Some s ∨ l ≤ 0)) in
  if decide (l ≤ 0) then new0_ptrs 1
  else
    let s := default [] s in
    let* c := count_nuls s 0 l 0 in
    let* b := load s (l - 1) in
    let c := if decide (b ≠ NUL) then S c else c in
    let* v := new0_ptrs (c + 1) in
    match v with
    | None => ret None
    | Some v =>
        let* r := fill (S l) s l 0 0 v in
        match r with
        | inl _ => ret None
        | inr (v, i) =>
            run assert (bool_decide (i = c)) in
            ret (Some v)
        end
    end.

(** ** NULSTR_FOREACH and strv_split_nulstr *)

(** The string at [s + i]: the bytes from [i] up to the first NUL at or after
    [i].  An object that ends before such a NUL makes [strlen], [strdup],
    [strchr] and the like read past its end: abort. *)
Definition string_at (s : list byte) (i : nat) : M (list byte) :=
  match find_nul (drop i s) with
  | Some k => ret (take k (drop i s))
  | None => abort
  end.

(** Modelled from the spec: [NULSTR_FOREACH(i, l)] of nulstr-util.h, the
    iteration of section 6 over an unbounded nulstr, segment by segment and
    stopping at the first empty segment:
    [for (i = l; i && *i; i = strchr(i, 0) + 1) body].
    The body is given the object and the position [i] and answers [inl r] to
    return [r] from the enclosing function, [inr st] to go on with the local
    variables [st]. *)
Fixpoint nulstr_foreach {St R : Type} (fuel : nat) (s : list byte) (i : nat)
    (body : list byte → nat → St → M (R + St)) (st : St) : M (R + St) :=
  match fuel with
  | 0 => spin
  | S fuel' =>
      let* b := load s i in
      if decide (b = NUL) then ret (inr st)
      else
        let* r := body s i st in
        match r with
        | inl x => ret (inl x)
        | inr st' =>
            let* x := string_at s i in
            nulstr_foreach fuel' s (i + length x + 1) body st'
        end
  end.

Definition NULSTR_FOREACH {St R : Type} (l : option (list byte))
    (body : list byte → nat → St → M (R + St)) (st : St) : M (R + St) :=
  match l with
  | None => ret (inr st)
  | Some s => nulstr_foreach (S (length s)) s 0 body st
  end.

(** Modelled from the spec: [strdup] as used by the string-vector append of
    section 6: a new buffer with the characters of [x] and a NUL. *)
Definition strdup (x : cstr) : M (option chars) := memdup_suffix0 (cstr_val x).

(** [strv_length(l)]: the number of slots before the first null pointer. *)
Definition strv_length (l : option strv) : nat :=
  from_option (fun v => length (slots_ids (slots v))) 0 l.

(** Modelled from the spec: [strv_extend(&l, value)] of strv.h, the
    string-vector append of section 6: the string is duplicated, the array
    (which may start absent) is grown to hold it and the sentinel; when an
    allocation is refused the result is [-ENOMEM], the duplicate is freed and
    [l] is as before.  The result pairs the returned code with the value of
    [l] after the call. *)
Definition strv_extend (l : option strv) (value : cstr)
  : M (Z * option strv) :=
  let* x := strdup value in
  match x with
  | None => ret ((- ENOMEM)%Z, l)
  | Some x =>
      let n := strv_length l in
      let* r := request in
      match r with
      | None => run release (chars_id x) in ret ((- ENOMEM)%Z, l)
      | Some (a, _) =>
          run match l with
              | Some v => release (strv_id v)
              | None => ret tt
              end in
          let old := from_option slots [] l in
          ret (0%Z, Some (Strv a (take n old ++ [Some x; None])))
      end
  end.

(** Modelled from the spec: [strv_new(NULL)] of strv.h: a new vector with no
    element, that is an array whose only slot is the sentinel. *)
Definition strv_new_empty : M (option strv) :=
  let* r := request in
  ret (match r with
       | None => None
       | Some (a, _) => Some (Strv a [None])
       end).

(** Lines 66-67, the body of the loop over the local variable [l]; the
    [_cleanup_strv_free_] attribute frees [l] when the function returns
    from inside the loop. *)
Definition split_step (s : list byte) (i : nat) (l : option strv)
  : M (option strv + option strv) :=
  let* x := string_at s i in
  let* (r, l) := strv_extend l x in
  if decide (r < 0)%Z
  then run strv_free l in ret (inl None)
  else ret (inr l).

Definition strv_split_nulstr (s : option (list byte)) : M (option strv) :=
  let* r := NULSTR_FOREACH s split_step None in
  match r with
  | inl x => ret x
  | inr (Some v) => ret (Some v)
  | inr None => strv_new_empty
  end.

(** ** strv_make_nulstr *)

(** Modelled from the spec: [GREEDY_REALLOC(m, need)] of alloc-util.h, the
    growable buffer primitive of section 6: a buffer that already has [need]
    cells is returned as it is; otherwise one request is made, which when
    granted gives a block of at least [need] cells that keeps the bytes of
    the old one, whose block is given back.  When the request is refused the
    result is the null pointer and [m] is as before. *)
Definition GREEDY_REALLOC (m : option chars) (need : nat)
  : M (option chars) :=
  if decide (is_Some m ∧ need ≤ from_option (length ∘ cells) 0 m) then ret m
  else
    let* r := request in
    match r with
    | None => ret None
    | Some (a, e) =>
        let old := from_option cells [] m in
        run match m with
            | Some b => release (chars_id b)
            | None => ret tt
            end in
        ret (Some (Chars a (old ++ replicate (need + e - length old) None)))
    end.

(** [memcpy(m + off, src, length src)]: a copy that leaves the buffer
    aborts. *)
Definition memcpy_at (m : chars) (off : nat) (src : list byte) : M chars :=
  if decide (off + length src ≤ length (cells m))
  then ret (Chars (chars_id m)
              (take off (cells m) ++ (Some <$> src)
               ++ drop (off + length src) (cells m)))
  else abort.

(** [free(m)], which the [_cleanup_free_] attribute runs on every path that
    leaves the scope. *)
Definition free_chars (m : option chars) : M unit :=
  match m with
  | None => ret tt
  | Some b => release (chars_id b)
  end.

(** Lines 89-99, [STRV_FOREACH(i, l)] over the strings that are left.
    [inl r]: the function returned [r] from inside the loop, after the
    cleanup of [m]; [inr (m, n)]: the loop ended. *)
Fixpoint append_all (l : list cstr) (m : option chars) (n : nat)
  : M (Z + option chars * nat) :=
  match l with
  | [] => ret (inr (m, n))
  | x :: l' =>
      let z := strlen x in
      let* g := GREEDY_REALLOC m (n + z + 2) in
      match g with
      | None => run free_chars m in ret (inl (- ENOMEM)%Z)
      | Some m =>
          let* m := memcpy_at m n (take (z + 1) (x ++ [NUL])) in
          append_all l' (Some m) (n + (z + 1))
      end
  end.

(** The result pairs the returned code with the values stored through [ret]
    and [ret_size], [None] when nothing was stored; the two pointers are
    taken to be valid, as lines 86-87 assert.  [STRV_FOREACH], the iteration
    of section 6 over a string vector, element by element up to the
    sentinel, runs no iteration for a null [l]. *)
Definition strv_make_nulstr (l : option (list cstr))
  : M (Z * option (chars * nat)) :=
  let* r := append_all (default [] l) None 0 in
  match r with
  | inl e => ret (e, None)
  | inr (None, _) =>
      let* m := new0_chars 2 in
      match m with
      | None => ret ((- ENOMEM)%Z, None)
      | Some m => ret (0%Z, Some (m, 0))
      end
  | inr (Some m, n) =>
      let* m := memcpy_at m n [NUL] in
      ret (0%Z, Some (m, n))
  end.

(** ** nulstr_get *)

(** Lines 123-124, the body of the loop.  The string at [i] is read to its
    end by [streq] when the strings are equal and by [strchr] when the loop
    goes on: on either path an object that ends before the terminator is
    read out of bounds. *)
Definition get_step (needle : cstr) (s : list byte) (i : nat) (_ : unit)
  : M (option nat + unit) :=
  let* x := string_at s i in
  if streq x needle then ret (inl (Some i)) else ret (inr tt).

(** The returned pointer is given by its offset in the nulstr. *)
Definition nulstr_get (nulstr : option (list byte)) (needle : cstr)
  : M (option nat) :=
  match nulstr with
  | None => ret None
  | Some _ =>
      let* r := NULSTR_FOREACH nulstr (get_step needle) tt in
      match r with
      | inl x => ret x
      | inr _ => ret None
      end
  end.

(** ** The data model of the specification *)

(** The segments of a bounded nulstr (section 3): the bytes are divided at
    the NUL bytes, a NUL ends the segment before it, and bytes after the last
    NUL form a final segment. *)
Fixpoint segments (w : list byte) : list (list byte) :=
  match w with
  | [] => []
  | b :: w' =>
      if decide (b = NUL) then [] :: segments w'
      else match segments w' with
           | [] => [[b]]
           | x :: r => (b :: x) :: r
           end
  end.

(** The NUL-terminated segments of an object, in order; bytes after the last
    NUL belong to no segment. *)
Fixpoint terminated (w : list byte) : list (list byte) :=
  match w with
  | [] => []
  | b :: w' =>
      if decide (b = NUL) then [] :: terminated w'
      else match terminated w' with
           | [] => []
           | x :: r => (b :: x) :: r
           end
  end.

(** The segments before the first empty one. *)
Fixpoint until_empty (segs : list (list byte)) : list (list byte) :=
  match segs with
  | [] => []
  | x :: r => if decide (x = []) then [] else x :: until_empty r
  end.

(** The strings of an unbounded nulstr (section 3): its segments up to the
    empty segment that marks the end. *)
Definition nulstr_strings (s : list byte) : list (list byte) :=
  until_empty (terminated s).

(** An unbounded nulstr is well formed when its end is marked: one of its
    NUL-terminated segments is empty. *)
Definition well_ended (s : list byte) : Prop := [] ∈ terminated s.

(** The serialized form of a vector (section 3): every element followed by
    a NUL. *)
Definition payload (v : list cstr) : list byte :=
  concat ((fun x => cstr_val x ++ [NUL]) <$> v).

(** The number of NUL bytes of [w]. *)
Definition nul_count (w : list byte) : nat :=
  length (filter (fun b => b = NUL) w).

(** The count of section 3: one segment for every NUL, and one more for an
    unterminated tail. *)
Definition open_tail (w : list byte) : nat :=
  match last w with
  | Some b => if decide (b = NUL) then 0 else 1
  | None => 0
  end.

(** The bytes of a buffer that may be read: the cells before the first one
    that was never written. *)
Fixpoint written (cs : list (option byte)) : list byte :=
  match cs with
  | Some b :: cs' => b :: written cs'
  | _ => []
  end.

(** Where string number [k] of a nulstr starts: after the strings before it
    and their terminators. *)
Definition start_of (strs : list (list byte)) (k : nat) : nat :=
  sum_list_with (fun x => length x + 1) (take k strs).

(** The first string equal to the needle, with its number. *)
Definition first_match (needle : cstr) (strs : list (list byte))
  : option (nat * list byte) :=
  list_find (fun x => x = cstr_val needle) strs.

(** ** Runs and what they do to the allocator *)

(** [wp m Q E h]: run from [h], [m] returns a value and a state that satisfy
    [Q], or it aborts and [E] holds; it does not run out of fuel. *)
Definition wp {A} (m : M A) (Q : A → heap → Prop) (E : Prop) (h : heap)
  : Prop :=
  match m h with
  | Ok a h' => Q a h'
  | Abort => E
  | Spin => False
  end.

(** [track h0 ids h]: since [h0] the oracle is the same, the clock has not
    gone back, and the live blocks are those of [h0] and the blocks [ids],
    which are distinct and were not live in [h0]. *)
Record track (h0 : heap) (ids : list nat) (h : heap) : Prop := Track {
  track_oracle : oracle h = oracle h0;
  track_clock : clock h0 ≤ clock h;
  track_nodup : NoDup ids;
  track_new : ∀ a, a ∈ ids → a ∉ live h0;
  track_live : live h = list_to_set ids ∪ live h0
}.

(** Every request made between [h0] and [h] was granted. *)
Definition granted (h0 h : heap) : Prop :=
  ∀ k, clock h0 ≤ k < clock h → is_Some (oracle h0 k).

(** Some request made between [h0] and [h] was refused. *)
Definition refused (h0 h : heap) : Prop :=
  ∃ k, clock h0 ≤ k < clock h ∧ oracle h0 k = None.

(** ** The local variables of the loops *)

(** The strings of a list of buffers. *)
Definition strings_of (cs : list chars) : list (list byte) :=
  (fun c => cells_str (cells c)) <$> cs.

(** What a vector returned by the parsers looks like: filled slots, then the
    sentinel. *)
Definition filled (v : strv) : Prop :=
  ∃ cs rest, slots v = (Some <$> cs) ++ None :: rest.

(** The local vector [l] of the loop holds the buffers [cs]. *)
Definition vec_of (l : option strv) (cs : list chars) : Prop :=
  match l with
  | None => cs = []
  | Some v => slots v = (Some <$> cs) ++ [None]
  end.

(** The blocks of a vector that may be null. *)
Definition vec_ids (l : option strv) : list nat := from_option strv_ids [] l.

(** The blocks of a buffer that may be null. *)
Definition buf_ids (m : option chars) : list nat :=
  from_option (fun b => [chars_id b]) [] m.

(** The buffer [m] and the size [n] after the strings [done]: no buffer yet,
    or a buffer that holds their serialized form and has room beyond it. *)
Definition buffered (h0 : heap) (done : list cstr) (m : option chars)
    (n : nat) (h : heap) : Prop :=
  n = length (payload done) ∧ track h0 (buf_ids m) h ∧
  match m with
  | None => done = []
  | Some b =>
      done ≠ [] ∧
      ∃ k, cells b = (Some <$> payload done) ++ replicate (S k) None
  end.

(** ** Allocators used in examples *)

(** An allocator with nothing allocated that grants every request, with no
    slack. *)
Definition generous : heap := Heap ∅ 0 (fun _ => Some 0).

(** An allocator with nothing allocated that grants every request, with a
    slack of 61 cells. *)
Definition roomy : heap := Heap ∅ 0 (fun _ => Some 61).

(** An allocator with nothing allocated that refuses every request. *)
Definition exhausted : heap := Heap ∅ 0 (fun _ => None).

(** An allocator with nothing allocated that refuses request number [k]
    only. *)
Definition refusing (k : nat) : heap :=
  Heap ∅ 0 (fun i => if decide (i = k) then None else Some 0).

(** ** Lists of bytes *)

Lemma find_nul_Some w k :
  find_nul w = Some k →
  k < length w ∧ w !! k = Some NUL ∧ NUL ∉ take k w.
Proof.
  revert k. induction w as [|b w IH]; intros k; simpl; [done|].
  case_decide as Hb.
  - intros [= <-]. subst b. simpl. split; [lia|]. split; [done|]. apply not_elem_of_nil.
  - destruct (find_nul w) as [j|] eqn:Hj; simpl; [|done].
    intros [= <-]. destruct (IH j eq_refl) as (? & ? & ?).
    simpl. split; [lia|]. split; [done|].
    rewrite not_elem_of_cons. split; [congruence|done].
Qed.

Lemma find_nul_None w : find_nul w = None ↔ NUL ∉ w.
Proof.
  induction w as [|b w IH]; simpl.
  - split; [intros _; apply not_elem_of_nil|done].
  - case_decide as Hb.
    + subst b. split; [done|]. intros []. by left.
    + rewrite not_elem_of_cons. destruct (find_nul w); simpl.
      * split; [done|]. intros [_ H]. by apply IH in H.
      * split; [|done]. intros _. split; [congruence|]. by apply IH.
Qed.

Lemma find_nul_app x w : NUL ∉ x → find_nul (x ++ NUL :: w) = Some (length x).
Proof.
  induction x as [|b x IH]; simpl; intros Hx.
  - by rewrite ?decide_True.
  - apply not_elem_of_cons in Hx as [Hb Hx].
    rewrite decide_False by congruence. by rewrite IH.
Qed.

Lemma strlen_le x : strlen x ≤ length x.
Proof.
  unfold strlen. destruct (find_nul x) as [k|] eqn:Hk; simpl; [|done].
  apply find_nul_Some in Hk. lia.
Qed.

Lemma cstr_val_no_nul x : NUL ∉ cstr_val x.
Proof.
  unfold cstr_val, strlen. destruct (find_nul x) as [k|] eqn:Hk; simpl.
  - by apply find_nul_Some in Hk as (_ & _ & ?).
  - rewrite firstn_all. by apply find_nul_None.
Qed.

Lemma cstr_val_id x : NUL ∉ x → cstr_val x = x.
Proof.
  intros Hx. unfold cstr_val, strlen.
  apply find_nul_None in Hx. rewrite Hx. simpl. apply firstn_all.
Qed.

Lemma length_cstr_val x : length (cstr_val x) = strlen x.
Proof. unfold cstr_val. rewrite length_take. pose proof (strlen_le x). lia. Qed.

(** The bytes that [memcpy(m + n, x, strlen(x) + 1)] reads. *)
Lemma take_strlen_succ x :
  take (strlen x + 1) (x ++ [NUL]) = cstr_val x ++ [NUL].
Proof.
  unfold cstr_val, strlen. destruct (find_nul x) as [k|] eqn:Hk; simpl.
  - apply find_nul_Some in Hk as (Hlt & Hk & _).
    rewrite take_app_le by lia.
    replace (k + 1) with (S k) by lia.
    by rewrite (take_S_r _ _ _ Hk).
  - rewrite firstn_all. rewrite take_ge; [done|]. rewrite length_app. simpl. lia.
Qed.

(** *** Segments of a bounded nulstr *)

Lemma segments_no_nul w : w ≠ [] → NUL ∉ w → segments w = [w].
Proof.
  induction w as [|b w IH]; [done|]. intros _ Hw.
  apply not_elem_of_cons in Hw as [Hb Hw]. simpl.
  rewrite decide_False by congruence.
  destruct w as [|b' w]; [done|]. by rewrite IH.
Qed.

Lemma segments_app x w : NUL ∉ x → segments (x ++ NUL :: w) = x :: segments w.
Proof.
  induction x as [|b x IH]; simpl; intros Hx.
  - by rewrite ?decide_True.
  - apply not_elem_of_cons in Hx as [Hb Hx].
    rewrite decide_False by congruence. by rewrite IH.
Qed.

Lemma segments_find w :
  w ≠ [] →
  segments w = match find_nul w with
               | None => [w]
               | Some k => take k w :: segments (drop (S k) w)
               end.
Proof.
  intros Hw. destruct (find_nul w) as [k|] eqn:Hk.
  - apply find_nul_Some in Hk as (Hlt & Hk & Hno).
    rewrite <-(take_drop_middle w k NUL Hk) at 1.
    by rewrite segments_app.
  - apply segments_no_nul; [done|]. by apply find_nul_None.
Qed.

Lemma payload_cons x v : payload (x :: v) = cstr_val x ++ NUL :: payload v.
Proof. unfold payload. simpl. by rewrite <-app_assoc. Qed.

Lemma segments_payload v : segments (payload v) = cstr_val <$> v.
Proof.
  induction v as [|x v IH]; [done|].
  rewrite payload_cons, segments_app by apply cstr_val_no_nul.
  by rewrite IH.
Qed.

Lemma segments_length w : length (segments w) = nul_count w + open_tail w.
Proof.
  unfold nul_count, open_tail. induction w as [|b w IH]; [done|].
  cbn [segments]. rewrite filter_cons.
  destruct (decide (b = NUL)) as [->|Hb].
  - cbn [length]. rewrite IH. destruct w; [done|]. simpl; lia.
  - destruct w as [|b' w].
    + simpl. by rewrite decide_False.
    + change (last (b :: b' :: w)) with (last (b' :: w)).
      destruct (segments (b' :: w)) as [|x r] eqn:Hs.
      { simpl in Hs. destruct (decide (b' = NUL)); [done|].
        destruct (segments w); done. }
      cbn [length] in *. by rewrite IH.
Qed.

(** *** Segments of an unbounded nulstr *)

Lemma terminated_no_nul w : NUL ∉ w → terminated w = [].
Proof.
  induction w as [|b w IH]; [done|]. intros Hw.
  apply not_elem_of_cons in Hw as [Hb Hw]. simpl.
  rewrite decide_False by congruence. by rewrite IH.
Qed.

Lemma terminated_app x w :
  NUL ∉ x → terminated (x ++ NUL :: w) = x :: terminated w.
Proof.
  induction x as [|b x IH]; simpl; intros Hx.
  - by rewrite ?decide_True.
  - apply not_elem_of_cons in Hx as [Hb Hx].
    rewrite decide_False by congruence. by rewrite IH.
Qed.

Lemma terminated_find w :
  terminated w = match find_nul w with
                 | None => []
                 | Some k => take k w :: terminated (drop (S k) w)
                 end.
Proof.
  destruct (find_nul w) as [k|] eqn:Hk.
  - apply find_nul_Some in Hk as (Hlt & Hk & Hno).
    rewrite <-(take_drop_middle w k NUL Hk) at 1.
    by rewrite terminated_app.
  - apply terminated_no_nul. by apply find_nul_None.
Qed.

Lemma until_empty_nonempty segs : Forall (fun x => x ≠ []) (until_empty segs).
Proof.
  induction segs as [|x r IH]; simpl; [constructor|].
  case_decide; [constructor|]. by constructor.
Qed.

(** ** Rules for runs *)

Lemma wp_ret {A} (a : A) Q E h : Q a h → wp (ret a) Q E h.
Proof. done. Qed.

Lemma wp_bind {A B} (m : M A) (k : A → M B) Q E h :
  wp m (fun a h' => wp (k a) Q E h') E h → wp (bind m k) Q E h.
Proof. unfold wp, bind. intros H. destruct (m h); done. Qed.

Lemma wp_mono {A} (m : M A) (Q Q' : A → heap → Prop) (E E' : Prop) h :
  wp m Q E h → (∀ a h', Q a h' → Q' a h') → (E → E') → wp m Q' E' h.
Proof. unfold wp. destruct (m h); auto. Qed.

Lemma wp_Ok {A} (m : M A) Q E h a h' : wp m Q E h → m h = Ok a h' → Q a h'.
Proof. unfold wp. intros H Hm. by rewrite Hm in H. Qed.

Lemma wp_returns {A} (m : M A) Q h : wp m Q False h → ∃ a h', m h = Ok a h'.
Proof. unfold wp. destruct (m h); [eauto|done|done]. Qed.

Lemma wp_assert (c : bool) Q E h : c = true → Q tt h → wp (assert c) Q E h.
Proof. by intros ->. Qed.

(** *** What a run did to the allocator *)

Lemma track_refl h : track h [] h.
Proof.
  split; [done|done|constructor| |].
  - intros a Ha. by apply elem_of_nil in Ha.
  - simpl. set_solver.
Qed.

Lemma granted_refl h : granted h h.
Proof. intros k ?. lia. Qed.

Lemma granted_not_refused h0 h : granted h0 h → refused h0 h → False.
Proof. intros Hg (k & Hk & Hn). destruct (Hg k Hk) as [e He]. congruence. Qed.

Lemma track_nil_live h0 h : track h0 [] h → live h = live h0.
Proof. intros [_ _ _ _ ->]. simpl. set_solver. Qed.

Lemma track_perm h0 ids ids' h : ids ≡ₚ ids' → track h0 ids h → track h0 ids' h.
Proof.
  intros Hp [? ? ? Hnew Hlive]. split; [done|done| | |].
  - by rewrite <-Hp.
  - intros a Ha. apply Hnew. by rewrite Hp.
  - rewrite Hlive. f_equal. apply set_eq. intros a.
    rewrite !elem_of_list_to_set. by rewrite Hp.
Qed.

Lemma wp_request h0 ids h (Q : option (nat * nat) → heap → Prop) E :
  track h0 ids h → granted h0 h →
  (∀ h', track h0 ids h' → refused h0 h' → Q None h') →
  (∀ a e h', track h0 (a :: ids) h' → granted h0 h' → Q (Some (a, e)) h') →
  wp request Q E h.
Proof.
  intros [Ho Hc Hnd Hnew Hlive] Hg Hnone Hsome. unfold wp, request.
  destruct (oracle h (clock h)) as [e|] eqn:He.
  - assert (fresh (live h) ∉ live h) as Hf by apply is_fresh.
    assert (∀ x, x ∈ live h ↔ x ∈ ids ∨ x ∈ live h0) as Hmem.
    { intros x. by rewrite Hlive, elem_of_union, elem_of_list_to_set. }
    apply Hsome.
    + split; simpl; [done|lia| | |].
      * constructor; [|done]. intros Hin. apply Hf, Hmem. by left.
      * intros a [->|Ha]%elem_of_cons; [|by apply Hnew].
        intros Hin. apply Hf, Hmem. by right.
      * by rewrite Hlive, union_assoc_L.
    + intros k Hk. simpl in Hk. destruct (decide (k = clock h)) as [->|].
      * rewrite <-Ho, He. eauto.
      * apply Hg. lia.
  - apply Hnone.
    + split; simpl; [done|lia|done|done|done].
    + exists (clock h). simpl. split; [lia|]. by rewrite <-Ho.
Qed.

Lemma wp_release h0 ids1 a ids2 h (Q : unit → heap → Prop) E :
  track h0 (ids1 ++ a :: ids2) h →
  (∀ h', track h0 (ids1 ++ ids2) h' → clock h' = clock h → Q tt h') →
  wp (release a) Q E h.
Proof.
  intros [Ho Hc Hnd Hnew Hlive] HQ. unfold wp, release.
  apply NoDup_app in Hnd as (Hnd1 & Hdisj & Hnd2).
  apply NoDup_cons in Hnd2 as [Ha2 Hnd2].
  rewrite decide_True.
  2:{ rewrite Hlive. apply elem_of_union_l, elem_of_list_to_set.
      apply elem_of_app. right. by left. }
  apply HQ; [|done]. split; simpl; [done|done| | |].
  - apply NoDup_app. split; [done|]. split; [|done].
    intros x Hx Hx2. apply (Hdisj x Hx). by right.
  - intros x Hx. apply Hnew. apply elem_of_app in Hx as [?|?];
      apply elem_of_app; [by left|right; by right].
  - rewrite Hlive. apply set_eq. intros x.
    rewrite elem_of_difference, !elem_of_union, !elem_of_list_to_set,
      !elem_of_app, elem_of_cons, elem_of_singleton.
    split.
    + intros [[[?|[->|?]]|?] Hne]; [by left; left|done|by left; right|by right].
    + intros [[Hx|Hx]|Hx].
      * split; [by left; left|]. intros ->. apply (Hdisj a Hx). by left.
      * split; [left; right; by right|]. by intros ->.
      * split; [by right|]. intros ->. apply (Hnew a); [|done].
        apply elem_of_app. right. by left.
Qed.

(** *** Vectors whose first slots are filled *)

Lemma slots_elems_filled cs rest :
  slots_elems ((Some <$> cs) ++ None :: rest) = strings_of cs.
Proof. induction cs as [|c cs IH]; csimpl; [done|]. by rewrite IH. Qed.

Lemma slots_ids_filled cs rest :
  slots_ids ((Some <$> cs) ++ None :: rest) = chars_id <$> cs.
Proof. induction cs as [|c cs IH]; csimpl; [done|]. by rewrite IH. Qed.

Lemma cells_str_dup x : NUL ∉ x → cells_str (Some <$> (x ++ [NUL])) = x.
Proof.
  induction x as [|b x IH]; csimpl; intros Hx; [done|].
  apply not_elem_of_cons in Hx as [Hb Hx].
  rewrite decide_False by congruence. by rewrite IH.
Qed.

Lemma strings_of_app cs cs' : strings_of (cs ++ cs') = strings_of cs ++ strings_of cs'.
Proof. unfold strings_of. by rewrite fmap_app. Qed.

(** *** The helpers *)

Lemma wp_free_strings h0 pre cs rest h (Q : unit → heap → Prop) E :
  track h0 (pre ++ (chars_id <$> cs)) h →
  (∀ h', track h0 pre h' → clock h' = clock h → Q tt h') →
  wp (free_strings ((Some <$> cs) ++ None :: rest)) Q E h.
Proof.
  revert h. induction cs as [|c cs IH]; intros h Ht HQ; csimpl in *.
  - apply wp_ret, HQ; [|done]. by rewrite app_nil_r in Ht.
  - apply wp_bind. eapply wp_release; [exact Ht|].
    intros h' Ht' Hc. apply IH; [done|].
    intros h'' ? ?. apply HQ; [done|congruence].
Qed.

Lemma wp_strv_free h0 v cs rest h (Q : unit → heap → Prop) E :
  slots v = (Some <$> cs) ++ None :: rest →
  track h0 (strv_id v :: (chars_id <$> cs)) h →
  (∀ h', track h0 [] h' → clock h' = clock h → Q tt h') →
  wp (strv_free (Some v)) Q E h.
Proof.
  intros Hv Ht HQ. unfold strv_free. rewrite Hv. apply wp_bind.
  eapply (wp_free_strings h0 [strv_id v]); [exact Ht|].
  intros h' Ht' Hc. eapply (wp_release h0 [] _ []); [exact Ht'|].
  intros h'' ? ?. apply HQ; [done|congruence].
Qed.

Lemma refused_clock h0 h h' : clock h' = clock h → refused h0 h → refused h0 h'.
Proof. intros Hc (k & Hk & Hn). exists k. split; [lia|done]. Qed.

Lemma granted_clock h0 h h' : clock h' = clock h → granted h0 h → granted h0 h'.
Proof. intros Hc Hg k Hk. apply Hg. lia. Qed.

Lemma wp_new0_ptrs h0 ids n h (Q : option strv → heap → Prop) E :
  track h0 ids h → granted h0 h →
  (∀ h', track h0 ids h' → refused h0 h' → Q None h') →
  (∀ a h', track h0 (a :: ids) h' → granted h0 h' →
           Q (Some (Strv a (replicate n None))) h') →
  wp (new0_ptrs n) Q E h.
Proof.
  intros Ht Hg Hn Hs. unfold new0_ptrs. apply wp_bind.
  eapply wp_request; [done|done| |].
  - intros h' ? ?. apply wp_ret. by apply Hn.
  - intros a e h' ? ?. apply wp_ret. by apply Hs.
Qed.

Lemma wp_memdup_suffix0 h0 ids src h (Q : option chars → heap → Prop) E :
  track h0 ids h → granted h0 h →
  (∀ h', track h0 ids h' → refused h0 h' → Q None h') →
  (∀ a h', track h0 (a :: ids) h' → granted h0 h' →
           Q (Some (Chars a (Some <$> (src ++ [NUL])))) h') →
  wp (memdup_suffix0 src) Q E h.
Proof.
  intros Ht Hg Hn Hs. unfold memdup_suffix0. apply wp_bind.
  eapply wp_request; [done|done| |].
  - intros h' ? ?. apply wp_ret. by apply Hn.
  - intros a e h' ? ?. apply wp_ret. by apply Hs.
Qed.

(** ** strv_parse_nulstr *)

Lemma count_nuls_run s p k c h :
  p ≤ length s →
  count_nuls s p k c h =
  if decide (p + k ≤ length s)
  then Ok (c + nul_count (take k (drop p s))) h
  else Abort.
Proof.
  revert p c. induction k as [|k IH]; intros p c Hp; simpl.
  - rewrite decide_True by lia. unfold ret, nul_count. simpl. by rewrite Nat.add_0_r.
  - unfold bind, load. destruct (s !! p) as [b|] eqn:Hb.
    + apply lookup_lt_Some in Hb as Hlt. unfold ret. rewrite IH by lia.
      rewrite (drop_S _ _ _ Hb). cbn [take]. unfold nul_count.
      rewrite filter_cons.
      destruct (decide (p + S k ≤ length s)), (decide (S p + k ≤ length s));
        try lia; [|done].
      destruct (decide (b = NUL)); simpl; f_equal; lia.
    + apply lookup_ge_None in Hb. unfold abort. rewrite decide_False by lia. done.
Qed.

Lemma window_run s l p h :
  l ≤ length s → p ≤ l → window s p (l - p) h = Ok (drop p (take l s)) h.
Proof.
  intros Hl Hp. unfold window. rewrite decide_True by lia.
  rewrite take_drop_commute. by replace (p + (l - p)) with l by lia.
Qed.

Lemma store_slot_run v cs y rest x h :
  slots v = (Some <$> cs) ++ y :: rest →
  store_slot v (length cs) x h
  = Ok (Strv (strv_id v) ((Some <$> cs) ++ x :: rest)) h.
Proof.
  intros Hv. unfold store_slot. rewrite Hv.
  rewrite decide_True by (rewrite length_app, length_fmap; simpl; lia).
  unfold ret. do 2 f_equal.
  rewrite <-(length_fmap Some cs), <-(Nat.add_0_r (length (Some <$> cs))).
  by rewrite insert_app_r.
Qed.

(** The loop fills the slots that follow the buffers [cs] with one buffer for
    every segment of [s[p..l)]. *)
Lemma wp_fill h0 s l fuel :
  l ≤ length s →
  ∀ p cs r v h,
    p ≤ l → l - p < fuel →
    slots v = (Some <$> cs) ++ replicate (S r) None →
    length (segments (drop p (take l s))) ≤ r →
    track h0 (strv_id v :: (chars_id <$> cs)) h → granted h0 h →
    wp (fill fuel s l p (length cs) v)
      (fun res h' =>
         match res with
         | inl _ => track h0 [] h' ∧ refused h0 h'
         | inr (v', i') =>
             ∃ cs' r',
               slots v' = (Some <$> (cs ++ cs')) ++ replicate (S r') None ∧
               i' = length (cs ++ cs') ∧
               strings_of cs' = segments (drop p (take l s)) ∧
               track h0 (strv_id v' :: (chars_id <$> (cs ++ cs'))) h' ∧
               granted h0 h'
         end) False h.
Proof.
  intros Hl. induction fuel as [|fuel IH]; intros p cs r v h Hp Hfuel Hv Hr Ht Hg;
    [lia|].
  cbn [fill]. destruct (decide (p < l)) as [Hlt|Hge].
  - apply wp_bind. unfold wp at 1. rewrite window_run by lia.
    set (w := drop p (take l s)) in *.
    assert (length w = l - p) as Hw.
    { unfold w. rewrite length_drop, length_take. lia. }
    assert (w ≠ []) as Hne by (intros Hnil; rewrite Hnil in Hw; simpl in Hw; lia).
    rewrite (segments_find w Hne) in Hr |- *.
    apply wp_bind. eapply wp_memdup_suffix0; [exact Ht|exact Hg| |].
    + (* the duplication is refused: v[i] is NULL, v is freed *)
      intros h1 Ht1 Hr1. apply wp_bind. unfold wp at 1.
      rewrite (store_slot_run v cs None (replicate r None) None) by done.
      apply wp_bind.
      eapply (wp_strv_free h0 _ cs (replicate r None)); [done|exact Ht1|].
      intros h2 Ht2 Hc2. apply wp_ret. split; [done|].
      by apply (refused_clock _ h1).
    + intros a h1 Ht1 Hg1. apply wp_bind. unfold wp at 1.
      rewrite (store_slot_run v cs None (replicate r None)) by done.
      set (x := Chars a _). set (v' := Strv _ _).
      assert (track h0 (strv_id v' :: (chars_id <$> (cs ++ [x]))) h1) as Ht1'.
      { eapply track_perm; [|exact Ht1]. rewrite fmap_app. simpl.
        rewrite (Permutation_app_comm _ [a]). simpl. apply perm_swap. }
      destruct (find_nul w) as [k|] eqn:Hk.
      * apply find_nul_Some in Hk as (Hkw & Hk & Hno).
        cbn [length] in Hr. destruct r as [|r]; [lia|].
        replace (S (length cs)) with (length (cs ++ [x]))
          by (rewrite length_app; simpl; lia).
        assert (drop (p + k + 1) (take l s) = drop (S k) w) as Hnext.
        { unfold w. rewrite drop_drop. f_equal. lia. }
        eapply wp_mono; [eapply (IH (p + k + 1) (cs ++ [x]) r v' h1)| |done].
        -- lia.
        -- lia.
        -- unfold v'. simpl. by rewrite fmap_app, <-app_assoc.
        -- rewrite Hnext. lia.
        -- exact Ht1'.
        -- exact Hg1.
        -- intros [[]|[v2 i2]] h2; [done|].
           intros (cs' & r' & Hv2 & Hi2 & Hs2 & Ht2 & Hg2).
           exists (x :: cs'), r'. rewrite <-app_assoc in Hv2, Hi2, Ht2.
           split; [done|]. split; [done|]. split; [|done].
           unfold strings_of in *. csimpl. rewrite Hs2, Hnext. f_equal.
           unfold x. simpl. simpl in Hkw.
           rewrite cells_str_dup; [done|]. done.
      * apply wp_ret. exists [x], (r - 1).
        cbn [length] in Hr. destruct r as [|r]; [lia|].
        replace (S r - 1) with r by lia.
        split; [unfold v'; simpl; by rewrite fmap_app, <-app_assoc|].
        split; [rewrite length_app; simpl; lia|].
        split; [|done]. unfold strings_of. csimpl. f_equal.
        unfold x. simpl. rewrite take_ge by lia.
        apply cells_str_dup. by apply find_nul_None.
  - apply wp_ret. exists [], r. rewrite app_nil_r.
    rewrite drop_ge by (rewrite length_take; lia).
    done.
Qed.

Lemma open_tail_take (bs : list byte) l :
  0 < l → l ≤ length bs →
  ∃ b, bs !! (l - 1) = Some b ∧
       open_tail (take l bs) = if decide (b ≠ NUL) then 1 else 0.
Proof.
  intros H0 Hl. destruct (lookup_lt_is_Some_2 bs (l - 1)) as [b Hb]; [lia|].
  exists b. split; [done|]. unfold open_tail.
  rewrite last_lookup, length_take, Nat.min_l by lia.
  replace (Init.Nat.pred l) with (l - 1) by lia.
  rewrite lookup_take_lt by lia. rewrite Hb.
  destruct (decide (b = NUL)), (decide (b ≠ NUL)); done.
Qed.

(** The bounded parser on an input that it may read: it returns; the result
    is NULL when a request was refused, and then nothing is left allocated;
    otherwise the vector holds the segments of [s[0..l)]. *)
Lemma wp_strv_parse_nulstr s l h :
  l ≤ length (default [] s) →
  wp (strv_parse_nulstr s l)
    (fun r h' =>
       match r with
       | None => track h [] h' ∧ refused h h'
       | Some v =>
           filled v ∧ track h (strv_ids v) h' ∧ granted h h' ∧
           strv_elems v = segments (take l (default [] s))
       end) False h.
Proof.
  intros Hl. unfold strv_parse_nulstr. apply wp_bind, wp_assert.
  { apply bool_decide_eq_true. destruct s; [left; eauto|right; simpl in Hl; lia]. }
  destruct (decide (l ≤ 0)) as [H0|H0].
  - replace l with 0 by lia.
    eapply wp_new0_ptrs; [apply track_refl|apply granted_refl| |].
    + by intros h' ? ?.
    + intros a h' Ht Hg. split; [by exists [], []|]. done.
  - set (bs := default [] s) in *.
    apply wp_bind. unfold wp at 1. rewrite count_nuls_run by lia.
    rewrite decide_True by lia. rewrite drop_0, Nat.add_0_l.
    destruct (open_tail_take bs l) as (b & Hb & Hopen); [lia|lia|].
    apply wp_bind. unfold wp at 1, load. rewrite Hb. unfold ret.
    set (c := if decide (b ≠ NUL) then _ else _).
    assert (c = length (segments (take l bs))) as Hc.
    { rewrite segments_length, Hopen. unfold c.
      destruct (decide (b ≠ NUL)); lia. }
    apply wp_bind.
    eapply wp_new0_ptrs; [apply track_refl|apply granted_refl| |].
    + intros h1 ? ?. by apply wp_ret.
    + intros a h1 Ht1 Hg1. apply wp_bind.
      eapply wp_mono;
        [apply (wp_fill h bs l (S l) Hl 0 [] c (Strv a (replicate (c + 1) None)) h1)
        | |done].
      * lia.
      * lia.
      * simpl. by replace (c + 1) with (S c) by lia.
      * rewrite drop_0. lia.
      * exact Ht1.
      * exact Hg1.
      * intros [[]|[v i]] h2; [intros ?; by apply wp_ret|].
        intros (cs & r & Hv & Hi & Hs & Ht2 & Hg2). rewrite drop_0 in Hs.
        simpl in Hv, Hi, Ht2.
        apply wp_bind, wp_assert.
        { apply bool_decide_eq_true. rewrite Hi, Hc, <-Hs.
          unfold strings_of. by rewrite length_fmap. }
        apply wp_ret. split; [by exists cs, (replicate r None)|].
        unfold strv_ids, strv_elems. rewrite Hv. simpl.
        by rewrite slots_ids_filled, slots_elems_filled.
Qed.

(** An input that the parser may not read: a null pointer with a positive
    length fails the assertion, a length beyond the object is read out of
    bounds. *)
Lemma strv_parse_nulstr_invalid s l h :
  ¬ l ≤ length (default [] s) → strv_parse_nulstr s l h = Abort.
Proof.
  intros Hl. unfold strv_parse_nulstr, bind.
  destruct s as [bs|]; cbn [default] in *.
  - rewrite bool_decide_eq_true_2 by (left; eauto). cbn [assert ret].
    rewrite decide_False by lia.
    rewrite count_nuls_run by lia. by rewrite decide_False by lia.
  - cbn [length] in Hl. rewrite bool_decide_eq_false_2; [done|].
    intros [[? [=]]|?]. lia.
Qed.

(** ** strv_split_nulstr *)

Lemma vec_ids_of l cs :
  vec_of l cs →
  vec_ids l = match l with
              | None => []
              | Some v => strv_id v :: (chars_id <$> cs)
              end.
Proof.
  destruct l as [v|]; [|done]. simpl. intros Hv.
  unfold strv_ids. by rewrite Hv, slots_ids_filled.
Qed.

Lemma wp_strv_free_vec h0 l cs h (Q : unit → heap → Prop) E :
  vec_of l cs → track h0 (vec_ids l) h →
  (∀ h', track h0 [] h' → clock h' = clock h → Q tt h') →
  wp (strv_free l) Q E h.
Proof.
  intros Hv Ht HQ. rewrite (vec_ids_of l cs Hv) in Ht.
  destruct l as [v|]; simpl in *.
  - by eapply (wp_strv_free h0 v cs []).
  - by apply wp_ret, HQ.
Qed.

Lemma wp_strv_extend h0 l cs value h (Q : Z * option strv → heap → Prop) E :
  vec_of l cs → track h0 (vec_ids l) h → granted h0 h →
  (∀ h', track h0 (vec_ids l) h' → refused h0 h' → Q ((- ENOMEM)%Z, l) h') →
  (∀ v x h',
     vec_of (Some v) (cs ++ [x]) →
     cells x = Some <$> (cstr_val value ++ [NUL]) →
     track h0 (strv_ids v) h' → granted h0 h' → Q (0%Z, Some v) h') →
  wp (strv_extend l value) Q E h.
Proof.
  intros Hv Ht Hg Hfail Hok. unfold strv_extend, strdup.
  apply wp_bind. eapply wp_memdup_suffix0; [exact Ht|exact Hg| |].
  { intros h1 ? ?. apply wp_ret. by apply Hfail. }
  intros a h1 Ht1 Hg1. set (x := Chars a _).
  apply wp_bind. eapply wp_request; [exact Ht1|exact Hg1| |].
  - intros h2 Ht2 Hr2. apply wp_bind.
    eapply (wp_release h0 [] a (vec_ids l)); [exact Ht2|].
    intros h3 Ht3 Hc3. apply wp_ret, Hfail; [done|].
    by apply (refused_clock _ h2).
  - intros a2 e h2 Ht2 Hg2. rewrite (vec_ids_of l cs Hv) in Ht2.
    destruct l as [v|]; simpl in Hv.
    + apply wp_bind.
      eapply (wp_release h0 [a2; a] (strv_id v) (chars_id <$> cs)); [exact Ht2|].
      intros h3 Ht3 Hc3. apply wp_ret.
      assert (strv_length (Some v) = length cs) as Hn.
      { simpl. by rewrite Hv, slots_ids_filled, length_fmap. }
      rewrite Hn. simpl. rewrite Hv.
      rewrite <-(length_fmap Some cs), take_app_length.
      apply (Hok _ x).
      * simpl. by rewrite fmap_app, <-app_assoc.
      * done.
      * unfold strv_ids. simpl.
        change [Some x; None] with ((Some <$> [x]) ++ [None]).
        rewrite app_assoc, <-fmap_app, slots_ids_filled, fmap_app.
        eapply track_perm; [|exact Ht3]. simpl. constructor.
        change (a :: (chars_id <$> cs)) with ([a] ++ (chars_id <$> cs)).
        apply Permutation_app_comm.
      * by apply (granted_clock _ h2).
    + subst cs. apply wp_bind, wp_ret, wp_ret. simpl.
      by apply (Hok _ x).
Qed.

Lemma well_ended_nil : ¬ well_ended [].
Proof. unfold well_ended. simpl. apply not_elem_of_nil. Qed.

Lemma well_ended_no_nul w : find_nul w = None → ¬ well_ended w.
Proof.
  intros Hw. unfold well_ended. rewrite terminated_find, Hw.
  apply not_elem_of_nil.
Qed.

(** One step of the iteration over a nulstr that starts with a string. *)
Lemma nulstr_step w k :
  find_nul w = Some k → 0 < k →
  take k w ≠ [] ∧
  nulstr_strings w = take k w :: nulstr_strings (drop (S k) w) ∧
  (well_ended w ↔ well_ended (drop (S k) w)).
Proof.
  intros Hk H0. pose proof (find_nul_Some _ _ Hk) as (Hlt & _ & _).
  assert (take k w ≠ []) as Hne.
  { intros Hnil. apply (f_equal length) in Hnil.
    rewrite length_take in Hnil. simpl in Hnil. lia. }
  split; [done|]. unfold nulstr_strings, well_ended.
  rewrite (terminated_find w), Hk. simpl.
  rewrite decide_False by done. split; [done|].
  rewrite elem_of_cons. naive_solver.
Qed.

Lemma string_at_run s i h :
  string_at s i h = match find_nul (drop i s) with
                    | Some k => Ok (take k (drop i s)) h
                    | None => Abort
                    end.
Proof. unfold string_at. by destruct (find_nul (drop i s)). Qed.

Lemma find_nul_pos b w k : b ≠ NUL → find_nul (b :: w) = Some k → 0 < k.
Proof.
  intros Hb. simpl. rewrite decide_False by done.
  destruct (find_nul w); simpl; [|done]. intros [= <-]. lia.
Qed.

(** The loop of [strv_split_nulstr] from position [i], the vector holding
    the buffers [cs]: it appends one buffer for every string of the nulstr
    at [i], or frees the vector when a request is refused; it aborts only
    when the nulstr has no end marker. *)
Lemma wp_split_loop h0 s fuel :
  ∀ i l cs h,
    length s - i < fuel →
    vec_of l cs → track h0 (vec_ids l) h → granted h0 h →
    wp (nulstr_foreach fuel s i split_step l)
      (fun res h' =>
         match res with
         | inl None => track h0 [] h' ∧ refused h0 h'
         | inl (Some _) => False
         | inr l' =>
             ∃ cs', vec_of l' (cs ++ cs') ∧
                    strings_of cs' = nulstr_strings (drop i s) ∧
                    well_ended (drop i s) ∧
                    track h0 (vec_ids l') h' ∧ granted h0 h'
         end) (¬ well_ended (drop i s)) h.
Proof.
  induction fuel as [|fuel IH]; intros i l cs h Hfuel Hv Ht Hg; [lia|].
  cbn [nulstr_foreach]. apply wp_bind. unfold wp at 1, load.
  destruct (s !! i) as [b|] eqn:Hb; unfold ret, abort.
  2:{ apply lookup_ge_None in Hb. rewrite drop_ge by done. apply well_ended_nil. }
  apply lookup_lt_Some in Hb as Hlt.
  destruct (decide (b = NUL)) as [->|Hne].
  - apply wp_ret. exists []. rewrite app_nil_r. rewrite (drop_S _ _ _ Hb).
    split; [done|]. split; [done|]. split; [|done].
    unfold well_ended. simpl. by left.
  - apply wp_bind. unfold split_step at 1. apply wp_bind.
    unfold wp at 1. rewrite string_at_run.
    destruct (find_nul (drop i s)) as [k|] eqn:Hk;
      [|by apply well_ended_no_nul].
    assert (0 < k) as Hk0.
    { rewrite (drop_S _ _ _ Hb) in Hk. by eapply find_nul_pos. }
    destruct (nulstr_step _ _ Hk Hk0) as (Hx & Hstrs & Hend).
    pose proof (find_nul_Some _ _ Hk) as (Hkl & _ & Hno).
    set (x := take k (drop i s)) in *.
    assert (length x = k) as Hlen.
    { unfold x. rewrite length_take. lia. }
    apply wp_bind.
    eapply (wp_strv_extend h0 l cs x); [done|done|done| |].
    + intros h1 Ht1 Hr1. rewrite decide_True by (unfold ENOMEM; lia).
      apply wp_bind. eapply (wp_strv_free_vec h0 l cs); [done|done|].
      intros h2 Ht2 Hc2. apply wp_ret, wp_ret. split; [done|].
      by apply (refused_clock _ h1).
    + intros v' x' h1 Hv' Hx' Ht1 Hg1. rewrite decide_False by lia.
      apply wp_ret, wp_bind. unfold wp at 1. rewrite string_at_run, Hk.
      fold x. rewrite Hlen.
      assert (drop (i + k + 1) s = drop (S k) (drop i s)) as Hnext.
      { rewrite drop_drop. f_equal. lia. }
      eapply wp_mono; [apply (IH (i + k + 1) (Some v') (cs ++ [x']) h1)| |].
      * rewrite length_drop in Hkl. lia.
      * done.
      * done.
      * done.
      * intros [[?|]|l2] h2; [done|done|].
        intros (cs' & Hv2 & Hs2 & He2 & Ht2 & Hg2).
        exists (x' :: cs'). rewrite <-app_assoc in Hv2.
        split; [done|]. rewrite Hnext in Hs2, He2.
        split; [|by split; [apply Hend|]].
        rewrite Hstrs. unfold strings_of in *. csimpl. rewrite Hs2. f_equal.
        rewrite Hx', cstr_val_id by done. by apply cells_str_dup.
      * rewrite Hnext. by rewrite Hend.
Qed.

(** The unbounded parser: on a nulstr with an end marker it returns; the
    result is NULL when a request was refused, and then nothing is left
    allocated; otherwise the vector holds the strings of the nulstr. *)
Lemma wp_strv_split_nulstr s h :
  wp (strv_split_nulstr s)
    (fun r h' =>
       match r with
       | None => track h [] h' ∧ refused h h'
       | Some v =>
           filled v ∧ track h (strv_ids v) h' ∧ granted h h' ∧
           strv_elems v = nulstr_strings (default [] s) ∧
           (∀ bs, s = Some bs → well_ended bs)
       end) (∃ bs, s = Some bs ∧ ¬ well_ended bs) h.
Proof.
  unfold strv_split_nulstr. apply wp_bind.
  assert (∀ l' (h1 : heap),
    (∃ cs', vec_of l' cs' ∧ strings_of cs' = nulstr_strings (default [] s) ∧
            (∀ bs, s = Some bs → well_ended bs) ∧
            track h (vec_ids l') h1 ∧ granted h h1) →
    wp match l' with
       | Some v => ret (Some v)
       | None => strv_new_empty
       end
      (fun r h' =>
         match r with
         | None => track h [] h' ∧ refused h h'
         | Some v =>
             filled v ∧ track h (strv_ids v) h' ∧ granted h h' ∧
             strv_elems v = nulstr_strings (default [] s) ∧
             (∀ bs, s = Some bs → well_ended bs)
         end) (∃ bs, s = Some bs ∧ ¬ well_ended bs) h1) as Hend.
  { intros l' h1 (cs' & Hv & Hs & He & Ht & Hg). destruct l' as [v|]; simpl in *.
    - apply wp_ret. split; [by exists cs', []|].
      split; [done|]. split; [done|]. split; [|done].
      unfold strv_elems. by rewrite Hv, slots_elems_filled.
    - subst cs'. unfold strv_new_empty. apply wp_bind.
      eapply wp_request; [exact Ht|exact Hg| |].
      + intros h2 ? ?. by apply wp_ret.
      + intros a e h2 Ht2 Hg2. apply wp_ret.
        split; [by exists [], []|]. done. }
  destruct s as [bs|]; cbn [NULSTR_FOREACH default].
  - eapply wp_mono;
      [apply (wp_split_loop h bs (S (length bs)) 0 None [] h);
       [lia|done|apply track_refl|apply granted_refl]| |].
    + intros [[?|]|l'] h1; [done|intros ?; by apply wp_ret|].
      rewrite drop_0. intros (cs' & Hv & Hs & He & Ht & Hg).
      apply Hend. exists cs'. split; [done|]. split; [done|].
      split; [by intros ? [= <-]|done].
    + rewrite drop_0. intros He. by exists bs.
  - apply wp_ret. apply (Hend None h). exists []. split; [done|].
    split; [done|]. split; [done|].
    split; [apply track_refl|apply granted_refl].
Qed.

(** ** nulstr_get *)

Lemma wp_get_loop needle s fuel :
  ∀ i h,
    length s - i < fuel →
    wp (nulstr_foreach fuel s i (get_step needle) tt)
      (fun res h' =>
         h' = h ∧
         match res with
         | inl (Some j) =>
             ∃ k x, first_match needle (nulstr_strings (drop i s)) = Some (k, x) ∧
                    j = i + start_of (nulstr_strings (drop i s)) k
         | inl None => False
         | inr _ =>
             first_match needle (nulstr_strings (drop i s)) = None ∧
             well_ended (drop i s)
         end) (¬ well_ended (drop i s)) h.
Proof.
  induction fuel as [|fuel IH]; intros i h Hfuel; [lia|].
  cbn [nulstr_foreach]. apply wp_bind. unfold wp at 1, load.
  destruct (s !! i) as [b|] eqn:Hb; unfold ret, abort.
  2:{ apply lookup_ge_None in Hb. rewrite drop_ge by done. apply well_ended_nil. }
  apply lookup_lt_Some in Hb as Hlt.
  destruct (decide (b = NUL)) as [->|Hne].
  - apply wp_ret. rewrite (drop_S _ _ _ Hb). split; [done|].
    split; [done|]. unfold well_ended. simpl. by left.
  - apply wp_bind. unfold get_step at 1. apply wp_bind.
    unfold wp at 1. rewrite string_at_run.
    destruct (find_nul (drop i s)) as [k|] eqn:Hk;
      [|by apply well_ended_no_nul].
    assert (0 < k) as Hk0.
    { rewrite (drop_S _ _ _ Hb) in Hk. by eapply find_nul_pos. }
    destruct (nulstr_step _ _ Hk Hk0) as (Hx & Hstrs & Hend).
    pose proof (find_nul_Some _ _ Hk) as (Hkl & _ & Hno).
    set (x := take k (drop i s)) in *.
    assert (length x = k) as Hlen.
    { unfold x. rewrite length_take. lia. }
    rewrite Hstrs. unfold first_match, streq. rewrite (cstr_val_id x) by done.
    cbn [list_find].
    destruct (decide (x = cstr_val needle)) as [Heq|Hneq];
      [rewrite bool_decide_eq_true_2 by done
      |rewrite bool_decide_eq_false_2 by done].
    + apply wp_ret, wp_ret. split; [done|]. exists 0, x.
      split; [done|]. unfold start_of. simpl. lia.
    + apply wp_ret, wp_bind. unfold wp at 1. rewrite string_at_run, Hk.
      fold x. rewrite Hlen.
      assert (drop (i + k + 1) s = drop (S k) (drop i s)) as Hnext.
      { rewrite drop_drop. f_equal. lia. }
      assert (length s - (i + k + 1) < fuel) as Hfuel'
        by (rewrite length_drop in Hkl; lia).
      pose proof (IH (i + k + 1) h Hfuel') as IH'. rewrite Hnext in IH'.
      fold (first_match needle (nulstr_strings (drop (S k) (drop i s)))).
      eapply wp_mono; [exact IH'| |by rewrite Hend].
      intros [[j|]|[]] h2.
      * intros (-> & k' & x' & Hfind & ->). split; [done|].
        exists (S k'), x'. rewrite Hfind. split; [done|].
        unfold start_of. simpl. lia.
      * by intros [_ ?].
      * intros (-> & Hfind & He). split; [done|]. rewrite Hfind.
        split; [done|]. by apply Hend.
Qed.

(** The lookup: it leaves the allocator as it was; it returns the position
    of the first string of the nulstr that equals the needle; when there is
    none it returns NULL, having reached the end marker; it aborts only when
    it runs past the end of a nulstr without end marker. *)
Lemma wp_nulstr_get nulstr needle h :
  wp (nulstr_get nulstr needle)
    (fun r h' =>
       h' = h ∧
       match nulstr with
       | None => r = None
       | Some s =>
           match first_match needle (nulstr_strings s) with
           | Some (k, _) => r = Some (start_of (nulstr_strings s) k)
           | None => r = None ∧ well_ended s
           end
       end) (∃ s, nulstr = Some s ∧ ¬ well_ended s) h.
Proof.
  unfold nulstr_get. destruct nulstr as [s|]; [|by apply wp_ret].
  apply wp_bind. cbn [NULSTR_FOREACH].
  eapply wp_mono; [apply (wp_get_loop needle s (S (length s)) 0 h); lia| |].
  - rewrite drop_0. intros [[j|]|[]] h1.
    + intros (-> & k & x & Hfind & ->). apply wp_ret. by rewrite Hfind.
    + by intros [_ ?].
    + intros (-> & Hfind & He). apply wp_ret. by rewrite Hfind.
  - rewrite drop_0. intros He. by exists s.
Qed.

(** ** strv_make_nulstr *)

Lemma payload_app v w : payload (v ++ w) = payload v ++ payload w.
Proof. unfold payload. by rewrite fmap_app, concat_app. Qed.

Lemma length_payload v :
  length (payload v) = sum_list_with (fun x => strlen x + 1) v.
Proof.
  induction v as [|x v IH]; [done|].
  rewrite payload_cons. simpl. rewrite length_app. simpl.
  rewrite length_cstr_val, IH. lia.
Qed.

Lemma wp_GREEDY_REALLOC h0 m need h (Q : option chars → heap → Prop) E :
  track h0 (buf_ids m) h → granted h0 h →
  (∀ h', track h0 (buf_ids m) h' → refused h0 h' → Q None h') →
  (∀ b k h',
     track h0 [chars_id b] h' → granted h0 h' →
     cells b = from_option cells [] m ++ replicate k None →
     need ≤ length (cells b) → Q (Some b) h') →
  wp (GREEDY_REALLOC m need) Q E h.
Proof.
  intros Ht Hg Hfail Hok. unfold GREEDY_REALLOC.
  destruct (decide (is_Some m ∧ _)) as [[[b ->] Hcap]|Hgrow].
  - apply wp_ret. simpl in *. apply (Hok b 0); [done|done| |done].
    simpl. by rewrite app_nil_r.
  - apply wp_bind. eapply wp_request; [exact Ht|exact Hg| |].
    + intros h1 ? ?. apply wp_ret. by apply Hfail.
    + intros a e h1 Ht1 Hg1. apply wp_bind.
      set (old := from_option cells [] m).
      set (b := Chars a _).
      assert (need ≤ length (cells b)) as Hcap.
      { unfold b. simpl. rewrite length_app, length_replicate. lia. }
      destruct m as [b0|]; simpl in *.
      * eapply (wp_release h0 [a] (chars_id b0) []); [exact Ht1|].
        intros h2 Ht2 Hc2. apply wp_ret.
        apply (Hok b (need + e - length old)); [done| |done|done].
        by apply (granted_clock _ h1).
      * apply wp_ret, wp_ret.
        by apply (Hok b (need + e - length old)).
Qed.

Lemma memcpy_at_run m P K off src h :
  cells m = (Some <$> P) ++ replicate K None →
  length P = off → length src ≤ K →
  memcpy_at m off src h
  = Ok (Chars (chars_id m)
          ((Some <$> (P ++ src)) ++ replicate (K - length src) None)) h.
Proof.
  intros Hm HP Hsrc. unfold memcpy_at. rewrite Hm.
  rewrite decide_True
    by (rewrite length_app, length_fmap, length_replicate; lia).
  unfold ret. do 2 f_equal.
  rewrite take_app_length' by (by rewrite length_fmap).
  rewrite drop_app_ge by (rewrite length_fmap; lia).
  rewrite length_fmap, drop_replicate, fmap_app, <-app_assoc.
  do 3 f_equal. lia.
Qed.

Lemma wp_free_chars h0 m h (Q : unit → heap → Prop) E :
  track h0 (buf_ids m) h →
  (∀ h', track h0 [] h' → clock h' = clock h → Q tt h') →
  wp (free_chars m) Q E h.
Proof.
  intros Ht HQ. destruct m as [b|]; simpl in *.
  - by eapply (wp_release h0 [] (chars_id b) []).
  - by apply wp_ret, HQ.
Qed.

(** The loop appends the serialized form of every string that is left, or
    frees the buffer when a request is refused. *)
Lemma wp_append_all h0 l :
  ∀ done m n h,
    buffered h0 done m n h → granted h0 h →
    wp (append_all l m n)
      (fun res h' =>
         match res with
         | inl e => e = (- ENOMEM)%Z ∧ track h0 [] h' ∧ refused h0 h'
         | inr (m', n') => buffered h0 (done ++ l) m' n' h' ∧ granted h0 h'
         end) False h.
Proof.
  induction l as [|x l IH]; intros done m n h (Hn & Ht & Hm) Hg; cbn [append_all].
  { apply wp_ret. by rewrite app_nil_r. }
  apply wp_bind. eapply wp_GREEDY_REALLOC; [exact Ht|exact Hg| |].
  - intros h1 Ht1 Hr1. apply wp_bind. eapply wp_free_chars; [exact Ht1|].
    intros h2 Ht2 Hc2. apply wp_ret. split; [done|]. split; [done|].
    by apply (refused_clock _ h1).
  - intros b k h1 Ht1 Hg1 Hb Hcap.
    assert (∃ K, cells b = (Some <$> payload done) ++ replicate K None
                 ∧ strlen x + 2 ≤ K) as (K & HK & HKge).
    { destruct m as [b0|]; simpl in Hb.
      - destruct Hm as (_ & k0 & Hb0). exists (S k0 + k).
        rewrite Hb, Hb0, <-app_assoc, <-replicate_add. split; [done|].
        rewrite Hb, Hb0, !length_app, length_fmap, !length_replicate in Hcap.
        lia.
      - subst done. exists k. split; [done|].
        rewrite Hb in Hcap. simpl in *. rewrite length_replicate in Hcap. lia. }
    apply wp_bind. unfold wp at 1. rewrite take_strlen_succ.
    rewrite (memcpy_at_run b (payload done) K n _ h1 HK (eq_sym Hn)) by
      (rewrite length_app, length_cstr_val; simpl; lia).
    rewrite length_app, length_cstr_val. simpl.
    set (b' := Chars _ _).
    eapply wp_mono; [apply (IH (done ++ [x]) (Some b') (n + (strlen x + 1)) h1)| |done].
    + split; [|split; [done|split]].
      * rewrite payload_app, length_app, Hn. f_equal.
        unfold payload. simpl. rewrite app_nil_r, length_app, length_cstr_val.
        done.
      * by destruct done.
      * exists (K - (strlen x + 1) - 1). unfold b'. simpl.
        rewrite payload_app. unfold payload at 3. simpl. rewrite app_nil_r.
        f_equal. rewrite <-replicate_S. f_equal. lia.
    + done.
    + intros [e|[m' n']] h2; [done|]. by rewrite <-app_assoc.
Qed.

(** The serializer always returns.  When a request was refused it returns
    [-ENOMEM], stores nothing and leaves nothing allocated.  Otherwise it
    returns 0 and stores the size of the serialized form and a buffer that
    starts with the serialized form and one more NUL; for an empty vector
    the buffer is two NUL bytes. *)
Lemma wp_strv_make_nulstr l h :
  wp (strv_make_nulstr l)
    (fun res h' =>
       match res.2 with
       | None => res.1 = (- ENOMEM)%Z ∧ track h [] h' ∧ refused h h'
       | Some (m, n) =>
           res.1 = 0%Z ∧ n = length (payload (default [] l)) ∧
           track h [chars_id m] h' ∧ granted h h' ∧
           if decide (default [] l = [])
           then cells m = [Some NUL; Some NUL]
           else ∃ k, cells m = (Some <$> (payload (default [] l) ++ [NUL]))
                               ++ replicate k None
       end) False h.
Proof.
  unfold strv_make_nulstr. set (v := default [] l). apply wp_bind.
  eapply wp_mono; [apply (wp_append_all h v [] None 0 h)| |done].
  - split; [done|]. split; [apply track_refl|done].
  - apply granted_refl.
  - intros [e|[[b|] n]] h1; simpl.
    + intros (-> & ? & ?). by apply wp_ret.
    + intros ((Hn & Ht & Hne & k & Hb) & Hg). apply wp_bind.
      unfold wp at 1.
      rewrite (memcpy_at_run b (payload v) (S k) n _ h1 Hb (eq_sym Hn))
        by (simpl; lia).
      apply wp_ret. simpl. split; [done|]. split; [done|].
      split; [done|]. split; [done|].
      rewrite decide_False by done. exists k.
      by rewrite Nat.sub_0_r.
    + intros ((Hn & Ht & ->) & Hg). unfold new0_chars.
      apply wp_bind, wp_bind.
      eapply wp_request; [exact Ht|exact Hg| |].
      * intros h2 ? ?. by apply wp_ret, wp_ret.
      * intros a e h2 Ht2 Hg2. by apply wp_ret, wp_ret.
Qed.

Lemma written_app xs k : written ((Some <$> xs) ++ replicate k None) = xs.
Proof.
  induction xs as [|b xs IH]; csimpl; [by destruct k|]. by rewrite IH.
Qed.

(** ** The properties *)



(** What a successful serialization stored: the size of the serialized form,
    and a buffer whose written bytes are the serialized form and one NUL,
    or two NULs for the empty vector. *)
Lemma strv_make_nulstr_stored l h r m n h1 :
  strv_make_nulstr l h = Ok (r, Some (m, n)) h1 →
  n = length (payload (default [] l)) ∧
  written (cells m)
  = payload (default [] l) ++ NUL
      :: (if decide (default [] l = []) then [NUL] else []).
Proof.
  intros Hrun.
  pose proof (wp_Ok _ _ _ _ _ _ (wp_strv_make_nulstr l h) Hrun) as Hpost.
  simpl in Hpost. destruct Hpost as (_ & Hn & _ & _ & Hcells).
  split; [done|]. destruct (decide (default [] l = [])) as [Hv|Hv].
  - by rewrite Hcells, Hv.
  - destruct Hcells as [k ->]. by rewrite written_app.
Qed.

Lemma cstr_val_all v : Forall (fun x => NUL ∉ x) v → cstr_val <$> v = v.
Proof.
  induction 1 as [|x v Hx _ IH]; csimpl; [done|].
  by rewrite cstr_val_id, IH.
Qed.



(** C3, as stated, fails for the empty vector: the reported size is 0 and the
    buffer holds two NUL bytes beyond it, not one. *)
Lemma strv_make_nulstr_empty_two_extra :
  ∃ m h1,
    strv_make_nulstr (Some []) generous = Ok (0%Z, Some (m, 0)) h1 ∧
    length (written (cells m)) ≠ 0 + 1.
Proof.
  eexists _, _. split; [vm_compute; reflexivity|]. vm_compute. lia.
Qed.

(** C3, amended.  A successful serialization reports the size
    [sum (strlen x + 1)] over the elements; beyond these bytes the buffer
    holds exactly one written byte, a NUL, when the vector is not empty, and
    exactly two, both NUL, when the vector is empty or absent. *)
Theorem strv_make_nulstr_size l h m n h1 :
  strv_make_nulstr l h = Ok (0%Z, Some (m, n)) h1 →
  n = sum_list_with (fun x => strlen x + 1) (default [] l) ∧
  take n (written (cells m)) = payload (default [] l) ∧
  drop n (written (cells m))
  = if decide (default [] l = []) then [NUL; NUL] else [NUL].
Proof.
  intros Hrun.
  destruct (strv_make_nulstr_stored _ _ _ _ _ _ Hrun) as (Hn & Hw).
  rewrite <-length_payload. split; [done|]. rewrite Hw.
  rewrite take_app_length', drop_app_length' by done.
  split; [done|]. by destruct (decide (default [] l = [])).
Qed.

Lemma strv_make_nulstr_size_witness :
  ∃ m n h1,
    strv_make_nulstr (Some [["a"%byte]; ["b"%byte; "c"%byte]]) generous
    = Ok (0%Z, Some (m, n)) h1 ∧
    n = 5 ∧
    take n (written (cells m))
    = ["a"%byte; NUL; "b"%byte; "c"%byte; NUL] ∧
    drop n (written (cells m)) = [NUL].
Proof.
  eexists _, _, _. split; [vm_compute; reflexivity|].
  refine (strv_make_nulstr_size
            (Some [["a"%byte]; ["b"%byte; "c"%byte]]) generous _ _ _ _).
  vm_compute. reflexivity.
Defined.

(** C4, as stated, fails for a vector that is not empty: for the vector of
    the one string "a" the reported size is 2 and the bytes written are 'a',
    NUL, NUL.  In a buffer granted without slack there is no byte at offset
    3; in a buffer granted with slack the byte at offset 3 was never
    written. *)
Lemma strv_make_nulstr_no_second_nul :
  (∃ m h1,
     strv_make_nulstr (Some [["a"%byte]]) generous = Ok (0%Z, Some (m, 2)) h1 ∧
     cells m !! (2 + 1) = None) ∧
  (∃ m h1,
     strv_make_nulstr (Some [["a"%byte]]) roomy = Ok (0%Z, Some (m, 2)) h1 ∧
     cells m !! (2 + 1) = Some None).
Proof.
  split; eexists _, _; (split; [vm_compute; reflexivity|]); vm_compute;
    reflexivity.
Qed.

(** C4, amended.  After a successful serialization the buffer has at least
    two bytes and the byte at offset [size] is NUL.  For an empty or absent
    vector, where [size] is 0, the byte at offset [size + 1] is NUL as well.
    For any other vector the second NUL is the one before, at offset
    [size - 1], which ends the last string; the byte at offset [size + 1]
    was never written, if the buffer has one. *)
Theorem strv_make_nulstr_trailing l h m n h1 :
  strv_make_nulstr l h = Ok (0%Z, Some (m, n)) h1 →
  2 ≤ length (cells m) ∧
  cells m !! n = Some (Some NUL) ∧
  if decide (default [] l = [])
  then n = 0 ∧ cells m !! (n + 1) = Some (Some NUL)
  else 0 < n ∧ cells m !! (n - 1) = Some (Some NUL) ∧
       (cells m !! (n + 1) = None ∨ cells m !! (n + 1) = Some None).
Proof.
  intros Hrun.
  pose proof (wp_Ok _ _ _ _ _ _ (wp_strv_make_nulstr l h) Hrun) as Hpost.
  simpl in Hpost. destruct Hpost as (_ & Hn & _ & _ & Hcells).
  destruct (decide (default [] l = [])) as [Hv|Hv].
  - rewrite Hv in Hn. simpl in Hn. subst n. by rewrite Hcells.
  - destruct Hcells as [k Hcells].
    destruct (exists_last Hv) as (v & x & Hl). rewrite Hl in Hn, Hcells.
    rewrite payload_app in Hn, Hcells.
    unfold payload at 2 in Hn. unfold payload at 2 in Hcells.
    simpl in Hn, Hcells. rewrite app_nil_r in Hn, Hcells.
    rewrite !length_app in Hn. simpl in Hn.
    set (P := payload v ++ cstr_val x) in *.
    assert (n = length P + 1) as Hn' by (unfold P; rewrite length_app; lia).
    assert (cells m = (Some <$> P) ++ [Some NUL; Some NUL]
                      ++ replicate k None) as Hc.
    { rewrite Hcells. unfold P. rewrite !fmap_app, <-!app_assoc. done. }
    assert (length (Some <$> P) = length P) as HlP by apply length_fmap.
    split; [rewrite Hc, length_app; simpl; lia|].
    split; [rewrite Hc, lookup_app_r by lia; by replace (n - _) with 1 by lia|].
    split; [lia|].
    split; [rewrite Hc, lookup_app_r by lia; by replace (n - 1 - _) with 0 by lia|].
    rewrite Hc, lookup_app_r by lia. replace (n + 1 - _) with 2 by lia.
    simpl. destruct k; [by left|by right].
Qed.

Lemma strv_make_nulstr_trailing_witness :
  ∃ m n h1,
    strv_make_nulstr (Some [["a"%byte]]) generous = Ok (0%Z, Some (m, n)) h1 ∧
    2 ≤ length (cells m) ∧
    cells m !! n = Some (Some NUL) ∧
    0 < n ∧ cells m !! (n - 1) = Some (Some NUL) ∧
    (cells m !! (n + 1) = None ∨ cells m !! (n + 1) = Some None).
Proof.
  eexists _, _, _. split; [vm_compute; reflexivity|].
  refine (strv_make_nulstr_trailing (Some [["a"%byte]]) generous _ _ _ _).
  vm_compute. reflexivity.
Defined.

(** The unbounded parser returns on every nulstr that has an end marker, and
    on the null pointer. *)
Lemma strv_split_nulstr_returns s h :
  (∀ bs, s = Some bs → well_ended bs) →
  ∃ r h', strv_split_nulstr s h = Ok r h'.
Proof.
  intros Hs. eapply wp_returns, wp_mono; [apply wp_strv_split_nulstr| |].
  - intros a h' H. exact H.
  - intros (bs & -> & He). by apply He, Hs.
Qed.



(** C10.  Every element of a vector returned by the unbounded parser is a
    string that is not empty. *)
Theorem strv_split_nulstr_nonempty s h v h' :
  strv_split_nulstr s h = Ok (Some v) h' →
  Forall (fun x => x ≠ []) (strv_elems v).
Proof.
  intros Hrun.
  pose proof (wp_Ok _ _ _ _ _ _ (wp_strv_split_nulstr s h) Hrun)
    as (_ & _ & _ & -> & _).
  apply until_empty_nonempty.
Qed.

Lemma strv_split_nulstr_nonempty_witness :
  ∃ v h',
    strv_split_nulstr
      (Some ["a"%byte; NUL; "b"%byte; "c"%byte; NUL; NUL; "d"%byte; NUL; NUL])
      generous
    = Ok (Some v) h' ∧
    Forall (fun x => x ≠ []) (strv_elems v).
Proof.
  eexists _, _. split; [vm_compute; reflexivity|].
  refine (strv_split_nulstr_nonempty
            (Some ["a"%byte; NUL; "b"%byte; "c"%byte; NUL; NUL; "d"%byte; NUL; NUL])
            generous _ _ _).
  vm_compute. reflexivity.
Defined.

(** String number [k] of a nulstr is the string at the position where it
    starts. *)
Lemma nulstr_strings_at k :
  ∀ s x h,
    nulstr_strings s !! k = Some x →
    string_at s (start_of (nulstr_strings s) k) h = Ok x h.
Proof.
  induction k as [|k IH]; intros s x h Hx;
    unfold nulstr_strings in *; rewrite (terminated_find s) in Hx |- *;
    destruct (find_nul s) as [j|] eqn:Hj; try done;
    cbn [until_empty] in Hx |- *;
    destruct (decide (take j s = [])) as [|Hne]; try done.
  - simpl in Hx. injection Hx as <-.
    rewrite string_at_run. unfold start_of. cbn [take sum_list_with].
    by rewrite drop_0, Hj.
  - simpl in Hx. specialize (IH _ _ h Hx). rewrite string_at_run in IH.
    pose proof (find_nul_Some _ _ Hj) as (Hlt & _ & _).
    rewrite string_at_run.
    unfold start_of in *. cbn [take sum_list_with].
    rewrite length_take, Nat.min_l by lia.
    rewrite drop_drop in IH.
    match type of IH with
    | context [drop ?a s] =>
        match goal with
        | |- context [drop ?b s] => replace b with a by lia
        end
    end.
    exact IH.
Qed.

(** The lookup returns on every nulstr that has an end marker. *)
Lemma nulstr_get_returns s needle h :
  well_ended s → ∃ r, nulstr_get (Some s) needle h = Ok r h.
Proof.
  intros Hs. pose proof (wp_nulstr_get (Some s) needle h) as Hwp.
  unfold wp in Hwp. destruct (nulstr_get (Some s) needle h) as [r h'| |].
  - destruct Hwp as [-> _]. by exists r.
  - destruct Hwp as (? & [= <-] & He). by destruct He.
  - done.
Qed.

(** C6.  On a null nulstr the lookup returns the null pointer.  On a nulstr
    that has an end marker it returns.  Whenever it returns, the allocator
    is as it was before and, [strs] being the segments of the nulstr from
    its start up to the first empty segment: if some string of [strs]
    equals the needle, the result points to the first such string, which is
    the string read at that position; if none does, the result is the null
    pointer. *)
Theorem nulstr_get_first_match needle h :
  nulstr_get None needle h = Ok None h ∧
  ∀ s,
    (well_ended s → ∃ r, nulstr_get (Some s) needle h = Ok r h) ∧
    (∀ r h',
       nulstr_get (Some s) needle h = Ok r h' →
       h' = h ∧
       let strs := until_empty (terminated s) in
       match list_find (fun x => x = cstr_val needle) strs with
       | Some (k, x) =>
           r = Some (start_of strs k) ∧
           x = cstr_val needle ∧
           (∀ j y, j < k → strs !! j = Some y → y ≠ cstr_val needle) ∧
           string_at s (start_of strs k) h = Ok (cstr_val needle) h
       | None => r = None ∧ Forall (fun y => y ≠ cstr_val needle) strs
       end).
Proof.
  split; [done|]. intros s. split; [apply nulstr_get_returns|].
  intros r h' Hrun.
  pose proof (wp_Ok _ _ _ _ _ _ (wp_nulstr_get (Some s) needle h) Hrun)
    as [-> Hpost].
  split; [done|].
  unfold first_match, nulstr_strings in Hpost. cbn zeta.
  destruct (list_find _ _) as [[k x]|] eqn:Hfind.
  - apply list_find_Some in Hfind as (Hk & -> & Hbefore).
    split; [done|]. split; [done|]. split; [by eauto|].
    by apply nulstr_strings_at.
  - destruct Hpost as [-> _]. split; [done|].
    by apply list_find_None in Hfind.
Qed.

Lemma nulstr_get_first_match_witness :
  let s := ["f"%byte; "o"%byte; NUL; "b"%byte; "a"%byte; NUL;
            "b"%byte; "a"%byte; NUL; NUL] in
  nulstr_get (Some s) ["b"%byte; "a"%byte] generous = Ok (Some 3) generous.
Proof.
  intros s.
  destruct (proj2 (nulstr_get_first_match ["b"%byte; "a"%byte] generous) s)
    as [Hret Hpost].
  assert (well_ended s) as Hs.
  { refine (bool_decide_unpack _ _). vm_compute. exact I. }
  destruct (Hret Hs) as [r Hrun].
  destruct (Hpost _ _ Hrun) as [_ Hm].
  vm_compute in Hm. destruct Hm as [Hr _]. rewrite Hr in Hrun. exact Hrun.
Defined.

(** C7.  Each of the three operations that allocate returns on every input
    that it may read: the bounded parser when the object has [l] bytes, the
    unbounded parser on the null pointer and on a nulstr with an end
    marker, the serializer always.  When a call returns and some request
    made during the call was refused, the result is the failure outcome
    (the null pointer; [-ENOMEM] with nothing stored) and the live blocks
    are those that were live before the call.  The failure outcome arises
    in no other way. *)
Theorem strv_alloc_failure :
  (∀ s l h,
     l ≤ length (default [] s) → ∃ r h', strv_parse_nulstr s l h = Ok r h') ∧
  (∀ s h,
     (∀ bs, s = Some bs → well_ended bs) →
     ∃ r h', strv_split_nulstr s h = Ok r h') ∧
  (∀ l h, ∃ res h', strv_make_nulstr l h = Ok res h') ∧
  (∀ s l h r h',
     strv_parse_nulstr s l h = Ok r h' →
     (refused h h' ↔ r = None) ∧ (refused h h' → live h' = live h)) ∧
  (∀ s h r h',
     strv_split_nulstr s h = Ok r h' →
     (refused h h' ↔ r = None) ∧ (refused h h' → live h' = live h)) ∧
  (∀ l h r out h',
     strv_make_nulstr l h = Ok (r, out) h' →
     (refused h h' ↔ out = None) ∧
     (refused h h' → r = (- ENOMEM)%Z ∧ live h' = live h)).
Proof.
  split; [|split; [|split; [|split; [|split]]]].
  - intros s l h Hl. eapply wp_returns. by apply wp_strv_parse_nulstr.
  - apply strv_split_nulstr_returns.
  - intros l h. eapply wp_returns. apply wp_strv_make_nulstr.
  - intros s l h r h' Hrun.
    destruct (decide (l ≤ length (default [] s))) as [Hl|Hl].
    2:{ by rewrite strv_parse_nulstr_invalid in Hrun. }
    pose proof (wp_Ok _ _ _ _ _ _ (wp_strv_parse_nulstr s l h Hl) Hrun) as Hp.
    destruct r as [v|].
    + destruct Hp as (_ & _ & Hg & _).
      split; [split; [|done]|]; intros Hr; destruct (granted_not_refused _ _ Hg Hr).
    + destruct Hp as [Ht Hr]. split; [done|]. intros _. by apply track_nil_live.
  - intros s h r h' Hrun.
    pose proof (wp_strv_split_nulstr s h) as Hp.
    unfold wp in Hp. rewrite Hrun in Hp. destruct r as [v|].
    + destruct Hp as (_ & _ & Hg & _).
      split; [split; [|done]|]; intros Hr; destruct (granted_not_refused _ _ Hg Hr).
    + destruct Hp as [Ht Hr]. split; [done|]. intros _. by apply track_nil_live.
  - intros l h r out h' Hrun.
    pose proof (wp_Ok _ _ _ _ _ _ (wp_strv_make_nulstr l h) Hrun) as Hp.
    simpl in Hp. destruct out as [[m n]|].
    + destruct Hp as (_ & _ & _ & Hg & _).
      split; [split; [|done]|]; intros Hr; destruct (granted_not_refused _ _ Hg Hr).
    + destruct Hp as (-> & Ht & Hr). split; [done|]. intros _.
      split; [done|]. by apply track_nil_live.
Qed.

Lemma strv_alloc_failure_witness :
  (∃ h', strv_parse_nulstr (Some ["a"%byte; NUL; "b"%byte]) 3 (refusing 2)
         = Ok None h' ∧ refused (refusing 2) h' ∧ live h' = ∅) ∧
  (∃ h', strv_split_nulstr (Some ["a"%byte; NUL; "b"%byte; NUL; NUL])
           (refusing 3)
         = Ok None h' ∧ refused (refusing 3) h' ∧ live h' = ∅) ∧
  (∃ h', strv_make_nulstr (Some [["a"%byte]; ["b"%byte]]) (refusing 1)
         = Ok ((- ENOMEM)%Z, None) h' ∧ refused (refusing 1) h' ∧ live h' = ∅).
Proof.
  destruct strv_alloc_failure
    as (Rparse & Rsplit & Rmake & Hparse & Hsplit & Hmake).
  split; [|split].
  - destruct (Rparse (Some ["a"%byte; NUL; "b"%byte]) 3 (refusing 2))
      as (r & h' & Hrun); [simpl; lia|].
    match type of Hrun with
    | ?lhs = _ => eassert (lhs = Ok None _) as Hrun' by (vm_compute; reflexivity)
    end.
    rewrite Hrun' in Hrun. injection Hrun as Hr Hh.
    pose proof (Hparse _ _ _ _ _ Hrun') as [Hiff Hlive].
    eexists. split; [exact Hrun'|].
    split; [exact (proj2 Hiff eq_refl)|exact (Hlive (proj2 Hiff eq_refl))].
  - destruct (Rsplit (Some ["a"%byte; NUL; "b"%byte; NUL; NUL]) (refusing 3))
      as (r & h' & Hrun).
    { intros bs Hbs. injection Hbs as <-.
      refine (bool_decide_unpack _ _). vm_compute. exact I. }
    match type of Hrun with
    | ?lhs = _ => eassert (lhs = Ok None _) as Hrun' by (vm_compute; reflexivity)
    end.
    rewrite Hrun' in Hrun. injection Hrun as Hr Hh.
    pose proof (Hsplit _ _ _ _ Hrun') as [Hiff Hlive].
    eexists. split; [exact Hrun'|].
    split; [exact (proj2 Hiff eq_refl)|exact (Hlive (proj2 Hiff eq_refl))].
  - destruct (Rmake (Some [["a"%byte]; ["b"%byte]]) (refusing 1))
      as (res & h' & Hrun).
    match type of Hrun with
    | ?lhs = _ =>
        eassert (lhs = Ok ((- ENOMEM)%Z, None) _) as Hrun'
          by (vm_compute; reflexivity)
    end.
    rewrite Hrun' in Hrun. injection Hrun as Hr Hh.
    pose proof (Hmake _ _ _ _ _ Hrun') as [Hiff Hlive].
    eexists. split; [exact Hrun'|].
    split; [exact (proj2 Hiff eq_refl)
           |exact (proj2 (Hlive (proj2 Hiff eq_refl)))].
Defined.

(** C8.  Serializing the absent vector and serializing the empty vector
    give the same result from the same allocator state.  Both make one
    request; when it is granted the result is a new buffer of two bytes,
    both NUL, with size 0; only when it is refused is there no buffer, the
    result then being [-ENOMEM] with nothing stored and nothing
    allocated. *)
Theorem strv_make_nulstr_empty h :
  strv_make_nulstr None h = strv_make_nulstr (Some []) h ∧
  match oracle h (clock h) with
  | Some _ =>
      ∃ a h', strv_make_nulstr None h
              = Ok (0%Z, Some (Chars a [Some NUL; Some NUL], 0)) h' ∧
              (a ∉ live h) ∧ live h' = {[a]} ∪ live h
  | None =>
      ∃ h', strv_make_nulstr None h = Ok ((- ENOMEM)%Z, None) h' ∧
            live h' = live h
  end.
Proof.
  split; [done|].
  unfold strv_make_nulstr, bind, append_all, new0_chars, bind, request, ret.
  simpl. destruct (oracle h (clock h)) as [e|].
  - eexists _, _. split; [done|]. split; [apply is_fresh|done].
  - by eexists.
Qed.


(** ** Termination *)

(** The fuel that the functions give to their loops is enough: no run ends
    for want of fuel. *)
Lemma fuel_suffices :
  (∀ s l h, strv_parse_nulstr s l h ≠ Spin) ∧
  (∀ s h, strv_split_nulstr s h ≠ Spin) ∧
  (∀ l h, strv_make_nulstr l h ≠ Spin) ∧
  (∀ nulstr needle h, nulstr_get nulstr needle h ≠ Spin).
Proof.
  split; [|split; [|split]].
  - intros s l h Hrun.
    destruct (decide (l ≤ length (default [] s))) as [Hl|Hl].
    + pose proof (wp_strv_parse_nulstr s l h Hl) as Hwp.
      unfold wp in Hwp. by rewrite Hrun in Hwp.
    + by rewrite strv_parse_nulstr_invalid in Hrun.
  - intros s h Hrun. pose proof (wp_strv_split_nulstr s h) as Hwp.
    unfold wp in Hwp. by rewrite Hrun in Hwp.
  - intros l h Hrun. pose proof (wp_strv_make_nulstr l h) as Hwp.
    unfold wp in Hwp. by rewrite Hrun in Hwp.
  - intros nulstr needle h Hrun.
    pose proof (wp_nulstr_get nulstr needle h) as Hwp.
    unfold wp in Hwp. by rewrite Hrun in Hwp.
Qed.

(** The bounded parser and the serializer return on every input that they
    may read. *)
Lemma strv_parse_nulstr_returns s l h :
  l ≤ length (default [] s) → ∃ r h', strv_parse_nulstr s l h = Ok r h'.
Proof. intros Hl. eapply wp_returns. by apply wp_strv_parse_nulstr. Qed.

Lemma strv_make_nulstr_returns l h : ∃ r h', strv_make_nulstr l h = Ok r h'.
Proof. eapply wp_returns. apply wp_strv_make_nulstr. Qed.

(** ** Further properties *)

(** *** More on segments *)

Lemma segments_nil_inv w : segments w = [] → w = [].
Proof.
  destruct w as [|b w]; [done|]. simpl.
  destruct (decide (b = NUL)); [done|]. by destruct (segments w).
Qed.

Lemma segments_no_nul_elems w : Forall (fun x => NUL ∉ x) (segments w).
Proof.
  induction w as [|b w IH]; simpl; [constructor|].
  destruct (decide (b = NUL)) as [->|Hb].
  - constructor; [apply not_elem_of_nil|done].
  - destruct (segments w) as [|x r].
    + repeat constructor. rewrite list_elem_of_singleton. congruence.
    + inversion_clear IH as [|? ? Hx Hr]. constructor; [|done].
      rewrite not_elem_of_cons. split; [congruence|done].
Qed.

Lemma open_tail_cons b w : w ≠ [] → open_tail (b :: w) = open_tail w.
Proof. unfold open_tail. by destruct w. Qed.

(** Joining the segments, each followed by a NUL, gives the bytes back, with
    one NUL more when the last segment was not terminated. *)
Lemma payload_segments w :
  payload (segments w) = w ++ replicate (open_tail w) NUL.
Proof.
  induction w as [|b w IH]; [done|]. cbn [segments].
  destruct (decide (b = NUL)) as [->|Hb].
  - rewrite payload_cons, IH. simpl. f_equal. destruct w as [|b' w]; [done|].
    by rewrite (open_tail_cons NUL (b' :: w)).
  - pose proof (segments_no_nul_elems w) as Hno.
    destruct (segments w) as [|x r] eqn:Hs.
    + apply segments_nil_inv in Hs as ->. unfold open_tail. simpl.
      rewrite decide_False by done. unfold payload. simpl.
      rewrite cstr_val_id; [done|]. rewrite list_elem_of_singleton. congruence.
    + assert (w ≠ []) as Hw by (by intros ->).
      rewrite open_tail_cons by done.
      inversion_clear Hno as [|? ? Hx Hr].
      rewrite payload_cons in IH |- *. rewrite cstr_val_id in IH by done.
      rewrite cstr_val_id
        by (rewrite not_elem_of_cons; split; [congruence|done]).
      simpl. by rewrite IH.
Qed.

Lemma segments_snoc_nul w :
  open_tail w = 1 → segments (w ++ [NUL]) = segments w.
Proof.
  induction w as [|b w IH]; [done|]. intros Ht. cbn [app segments].
  destruct w as [|b' w].
  - unfold open_tail in Ht. simpl in *.
    destruct (decide (b = NUL)); [done|]. done.
  - rewrite open_tail_cons in Ht by done. by rewrite IH.
Qed.

(** *** More on unbounded nulstrs *)

Lemma until_empty_fixed xs : Forall (fun x => x ≠ []) xs → until_empty xs = xs.
Proof.
  induction 1 as [|x xs Hx _ IH]; simpl; [done|].
  rewrite decide_False by done. by rewrite IH.
Qed.

(** A serialized vector followed by a NUL is a nulstr with an end marker,
    whose strings are the elements before the first empty one. *)
Lemma terminated_payload v rest :
  until_empty (terminated (payload v ++ NUL :: rest))
  = until_empty (cstr_val <$> v) ∧
  well_ended (payload v ++ NUL :: rest).
Proof.
  unfold well_ended. induction v as [|x v [IH1 IH2]].
  - simpl. split; [done|]. by left.
  - rewrite payload_cons, <-app_assoc. cbn [app].
    rewrite terminated_app by apply cstr_val_no_nul. csimpl.
    split; [|by right]. destruct (decide (cstr_val x = [])); [done|].
    by rewrite IH1.
Qed.

(** A nulstr with an end marker is its strings, each followed by a NUL, then
    the NUL of the end marker, then bytes that the marker hides. *)
Lemma well_ended_split s :
  well_ended s →
  Forall (fun x => NUL ∉ x) (nulstr_strings s) ∧
  ∃ rest, s = payload (nulstr_strings s) ++ NUL :: rest.
Proof.
  remember (length s) as n eqn:Hn. revert s Hn.
  induction n as [n IH] using lt_wf_ind. intros s -> Hs.
  unfold well_ended, nulstr_strings in *.
  rewrite (terminated_find s) in Hs |- *.
  destruct (find_nul s) as [k|] eqn:Hk; [|by apply elem_of_nil in Hs].
  pose proof (find_nul_Some _ _ Hk) as (Hlt & Hnul & Hno).
  cbn [until_empty]. destruct (decide (take k s = [])) as [Hnil|Hne].
  - split; [constructor|]. exists (drop (S k) s). simpl.
    rewrite <-(take_drop_middle s k NUL Hnul) at 1. by rewrite Hnil.
  - apply elem_of_cons in Hs as [Hs|Hs]; [done|].
    destruct (IH (length (drop (S k) s))
                ltac:(rewrite length_drop; lia) _ eq_refl Hs)
      as (Hall & rest & Hrest).
    split; [by constructor|]. exists rest.
    rewrite payload_cons, cstr_val_id by done.
    rewrite <-app_assoc. cbn [app]. rewrite <-Hrest.
    by rewrite (take_drop_middle s k NUL Hnul).
Qed.

(** Bytes after the end marker do not change the strings of a nulstr. *)
Lemma nulstr_strings_app s t :
  well_ended s →
  nulstr_strings (s ++ t) = nulstr_strings s ∧ well_ended (s ++ t).
Proof.
  intros Hs. destruct (well_ended_split s Hs) as (Hall & rest & Hrest).
  pose proof (until_empty_nonempty (terminated s)) as Hne.
  fold (nulstr_strings s) in Hne.
  rewrite Hrest at 1 3. rewrite <-app_assoc. cbn [app].
  destruct (terminated_payload (nulstr_strings s) (rest ++ t)) as [H1 H2].
  split; [|done]. unfold nulstr_strings at 1. rewrite H1.
  by rewrite cstr_val_all, until_empty_fixed.
Qed.

(** For strings without NUL, the serialized form is the strings, each
    followed by a NUL. *)
Lemma cstr_val_all_join v :
  Forall (fun x => NUL ∉ x) v →
  (fun x => cstr_val x ++ [NUL]) <$> v = (fun x => x ++ [NUL]) <$> v.
Proof.
  induction 1 as [|x v Hx _ IH]; csimpl; [done|].
  by rewrite cstr_val_id, IH.
Qed.

(** *** The bounded parser *)

Lemma open_tail_decide (bs : list byte) l :
  l ≤ length bs →
  open_tail (take l bs)
  = if decide (0 < l ∧ bs !! (l - 1) ≠ Some NUL) then 1 else 0.
Proof.
  intros Hl. destruct (decide (0 < l)) as [H0|H0].
  - destruct (open_tail_take bs l H0 Hl) as (b & Hb & ->). rewrite Hb.
    destruct (decide (b ≠ NUL)), (decide (0 < l ∧ Some b ≠ Some NUL));
      naive_solver.
  - replace l with 0 by lia. done.
Qed.

(** A vector returned by the bounded parser holds the segments of the bytes
    read, which lie inside the object. *)
Lemma strv_parse_nulstr_elems s l h v h' :
  strv_parse_nulstr s l h = Ok (Some v) h' →
  l ≤ length (default [] s) ∧
  filled v ∧ track h (strv_ids v) h' ∧
  strv_elems v = segments (take l (default [] s)).
Proof.
  intros Hrun. destruct (decide (l ≤ length (default [] s))) as [Hl|Hl].
  2:{ by rewrite strv_parse_nulstr_invalid in Hrun. }
  pose proof (wp_Ok _ _ _ _ _ _ (wp_strv_parse_nulstr s l h Hl) Hrun)
    as (? & ? & _ & ?).
  done.
Qed.

Lemma filled_ids_length v :
  filled v → length (strv_ids v) = S (length (strv_elems v)).
Proof.
  intros (cs & rest & Hv). unfold strv_ids, strv_elems. rewrite Hv.
  rewrite slots_ids_filled, slots_elems_filled. unfold strings_of.
  simpl. by rewrite !length_fmap.
Qed.

(** X1.  The elements of a vector returned by the bounded parser hold no NUL
    byte, and joined, each followed by a NUL, they give back the bytes
    [s[0..l)], with one NUL more when [l > 0] and [s[l-1]] is not NUL. *)
Theorem strv_parse_nulstr_rejoin s l h v h' :
  strv_parse_nulstr s l h = Ok (Some v) h' →
  Forall (fun x => NUL ∉ x) (strv_elems v) ∧
  concat ((fun x => x ++ [NUL]) <$> strv_elems v)
  = take l (default [] s)
    ++ (if decide (0 < l ∧ default [] s !! (l - 1) ≠ Some NUL)
        then [NUL] else []).
Proof.
  intros Hrun.
  destruct (strv_parse_nulstr_elems _ _ _ _ _ Hrun) as (Hl & _ & _ & ->).
  pose proof (segments_no_nul_elems (take l (default [] s))) as Hno.
  split; [done|].
  pose proof (payload_segments (take l (default [] s))) as Hp.
  unfold payload in Hp. rewrite cstr_val_all_join in Hp by done.
  rewrite Hp, open_tail_decide by done.
  by destruct (decide (0 < l ∧ _)).
Qed.

Lemma strv_parse_nulstr_rejoin_witness :
  ∃ v h',
    strv_parse_nulstr (Some ["a"%byte; NUL; NUL; "b"%byte]) 4 generous
    = Ok (Some v) h' ∧
    Forall (fun x => NUL ∉ x) (strv_elems v) ∧
    concat ((fun x => x ++ [NUL]) <$> strv_elems v)
    = ["a"%byte; NUL; NUL; "b"%byte; NUL].
Proof.
  eexists _, _. split; [vm_compute; reflexivity|].
  refine (strv_parse_nulstr_rejoin
            (Some ["a"%byte; NUL; NUL; "b"%byte]) 4 generous _ _ _).
  vm_compute. reflexivity.
Defined.

(** X2.  Serializing a vector returned by the bounded parser gives the bytes
    [s[0..l)] back: with the size [l] when [s[l-1]] is NUL or [l] is 0, and
    with one NUL more and the size [l + 1] otherwise. *)
Theorem strv_parse_make_roundtrip s l h v h1 m n h2 :
  strv_parse_nulstr s l h = Ok (Some v) h1 →
  strv_make_nulstr (Some (strv_elems v)) h1 = Ok (0%Z, Some (m, n)) h2 →
  let tail := if decide (0 < l ∧ default [] s !! (l - 1) ≠ Some NUL)
              then [NUL] else [] in
  n = l + length tail ∧
  take n (written (cells m)) = take l (default [] s) ++ tail.
Proof.
  intros Hparse Hmake tail.
  destruct (strv_parse_nulstr_elems _ _ _ _ _ Hparse) as (Hl & _ & _ & He).
  destruct (strv_make_nulstr_stored _ _ _ _ _ _ Hmake) as (Hn & Hw).
  change (default [] (Some (strv_elems v))) with (strv_elems v) in Hn, Hw.
  rewrite He in Hn, Hw. rewrite payload_segments in Hn, Hw.
  rewrite open_tail_decide in Hn, Hw by done.
  assert (replicate
            (if decide (0 < l ∧ default [] s !! (l - 1) ≠ Some NUL)
             then 1 else 0) NUL = tail) as Ht.
  { unfold tail. by destruct (decide (0 < l ∧ _)). }
  rewrite Ht in Hn, Hw. rewrite length_app, length_take, Nat.min_l in Hn by done.
  split; [done|]. rewrite Hw, take_app_length'; [done|].
  rewrite length_app, length_take. lia.
Qed.

Lemma strv_parse_make_roundtrip_witness :
  ∃ v h1 m n h2,
    strv_parse_nulstr (Some ["a"%byte; NUL; NUL; "b"%byte; NUL]) 5 generous
    = Ok (Some v) h1 ∧
    strv_make_nulstr (Some (strv_elems v)) h1 = Ok (0%Z, Some (m, n)) h2 ∧
    n = 5 ∧
    take n (written (cells m)) = ["a"%byte; NUL; NUL; "b"%byte; NUL].
Proof.
  eexists _, _, _, _, _.
  split; [vm_compute; reflexivity|].
  split; [vm_compute; reflexivity|].
  refine (strv_parse_make_roundtrip
            (Some ["a"%byte; NUL; NUL; "b"%byte; NUL]) 5 generous
            _ _ _ _ _ _ _);
    vm_compute; reflexivity.
Defined.

(** X3.  The bounded parser runs to its end, without failing an assertion
    and without an access outside an object, exactly when the object at [s]
    has at least [l] bytes (a null [s] having none). *)
Theorem strv_parse_nulstr_returns_iff s l h :
  (∃ r h', strv_parse_nulstr s l h = Ok r h') ↔ l ≤ length (default [] s).
Proof.
  split.
  - intros (r & h' & Hrun).
    destruct (decide (l ≤ length (default [] s))) as [Hl|Hl]; [done|].
    by rewrite strv_parse_nulstr_invalid in Hrun.
  - apply strv_parse_nulstr_returns.
Qed.

(** X4.  A vector returned by the bounded parser owns one block for its
    array and one for each element; these blocks are distinct, none was live
    before the call, and after the call the live blocks are these and those
    live before: every block the call allocated belongs to the result. *)
Theorem strv_parse_nulstr_owns s l h v h' :
  strv_parse_nulstr s l h = Ok (Some v) h' →
  length (strv_ids v) = S (length (strv_elems v)) ∧
  NoDup (strv_ids v) ∧
  (∀ a, a ∈ strv_ids v → a ∉ live h) ∧
  live h' = list_to_set (strv_ids v) ∪ live h.
Proof.
  intros Hrun.
  destruct (strv_parse_nulstr_elems _ _ _ _ _ Hrun) as (_ & Hf & Ht & _).
  split; [by apply filled_ids_length|].
  by destruct Ht.
Qed.

Lemma strv_parse_nulstr_owns_witness :
  ∃ v h',
    strv_parse_nulstr (Some ["a"%byte; NUL; "b"%byte]) 3 generous
    = Ok (Some v) h' ∧
    length (strv_ids v) = 3 ∧ NoDup (strv_ids v) ∧
    live h' = list_to_set (strv_ids v) ∪ ∅.
Proof.
  eexists _, _. split; [vm_compute; reflexivity|].
  assert (strv_parse_nulstr (Some ["a"%byte; NUL; "b"%byte]) 3 generous
          = Ok (Some (Strv 0 [Some (Chars 1 [Some "a"%byte; Some NUL]);
                             Some (Chars 2 [Some "b"%byte; Some NUL]);
                             None]))
               (Heap (list_to_set [0; 1; 2]) 3 (oracle generous))) as Hrun.
  { vm_compute. reflexivity. }
  destruct (strv_parse_nulstr_owns _ _ _ _ _ Hrun) as (Hlen & Hnd & _ & Hlive).
  split; [exact Hlen|]. split; [exact Hnd|exact Hlive].
Defined.

(** *** The unbounded parser and the lookup *)

(** A vector returned by the unbounded parser holds the strings of the
    nulstr, which has an end marker. *)
Lemma strv_split_nulstr_elems s h v h' :
  strv_split_nulstr s h = Ok (Some v) h' →
  filled v ∧ track h (strv_ids v) h' ∧
  strv_elems v = nulstr_strings (default [] s) ∧
  (∀ bs, s = Some bs → well_ended bs).
Proof.
  intros Hrun. pose proof (wp_strv_split_nulstr s h) as Hwp.
  unfold wp in Hwp. rewrite Hrun in Hwp.
  destruct Hwp as (? & ? & _ & ? & ?). done.
Qed.

(** The lookup finds the needle exactly when it is one of the strings of
    the nulstr. *)
Lemma nulstr_get_found s needle h r h' :
  nulstr_get (Some s) needle h = Ok r h' →
  is_Some r ↔ cstr_val needle ∈ nulstr_strings s.
Proof.
  intros Hrun.
  pose proof (wp_Ok _ _ _ _ _ _ (wp_nulstr_get (Some s) needle h) Hrun)
    as [_ Hpost].
  unfold first_match in Hpost.
  destruct (list_find _ _) as [[k x]|] eqn:Hfind.
  - apply list_find_Some in Hfind as (Hk & -> & _). rewrite Hpost.
    split; [intros _|by eauto]. by eapply list_elem_of_lookup_2.
  - destruct Hpost as [-> _]. apply list_find_None in Hfind.
    split; [by intros [? [=]]|]. intros Hin.
    by destruct (proj1 (Forall_forall _ _) Hfind _ Hin).
Qed.

(** X5.  A vector returned by the unbounded parser owns one block for its
    array and one for each element; these blocks are distinct, none was live
    before the call, and after the call the live blocks are these and those
    live before: the arrays that the appends replaced have been freed. *)
Theorem strv_split_nulstr_owns s h v h' :
  strv_split_nulstr s h = Ok (Some v) h' →
  length (strv_ids v) = S (length (strv_elems v)) ∧
  NoDup (strv_ids v) ∧
  (∀ a, a ∈ strv_ids v → a ∉ live h) ∧
  live h' = list_to_set (strv_ids v) ∪ live h.
Proof.
  intros Hrun.
  destruct (strv_split_nulstr_elems _ _ _ _ Hrun) as (Hf & Ht & _).
  split; [by apply filled_ids_length|].
  by destruct Ht.
Qed.

Lemma strv_split_nulstr_owns_witness :
  ∃ v h',
    strv_split_nulstr (Some ["a"%byte; NUL; "b"%byte; NUL; NUL]) generous
    = Ok (Some v) h' ∧
    length (strv_ids v) = S (length (strv_elems v)) ∧
    NoDup (strv_ids v) ∧
    (∀ a, a ∈ strv_ids v → a ∉ live generous) ∧
    live h' = list_to_set (strv_ids v) ∪ live generous.
Proof.
  eexists _, _.
  refine ((fun Hrun => conj Hrun (strv_split_nulstr_owns _ _ _ _ Hrun)) _).
  vm_compute. reflexivity.
Defined.

(** X6.  After a successful serialization the returned buffer is the only
    block that the call left allocated: it was not live before, and the
    buffers that were outgrown on the way have been freed. *)
Theorem strv_make_nulstr_owns l h r m n h' :
  strv_make_nulstr l h = Ok (r, Some (m, n)) h' →
  (chars_id m ∉ live h) ∧ live h' = {[chars_id m]} ∪ live h.
Proof.
  intros Hrun.
  pose proof (wp_Ok _ _ _ _ _ _ (wp_strv_make_nulstr l h) Hrun) as Hpost.
  simpl in Hpost. destruct Hpost as (_ & _ & Ht & _).
  split.
  - apply (track_new _ _ _ Ht). by left.
  - rewrite (track_live _ _ _ Ht). simpl. by rewrite union_empty_r_L.
Qed.

Lemma strv_make_nulstr_owns_witness :
  ∃ m n h',
    strv_make_nulstr (Some [["a"%byte]; ["b"%byte; "c"%byte]; []]) generous
    = Ok (0%Z, Some (m, n)) h' ∧
    (chars_id m ∉ (∅ : gset nat)) ∧ live h' = {[chars_id m]} ∪ ∅.
Proof.
  eexists _, _, _.
  refine ((fun Hrun => conj Hrun (strv_make_nulstr_owns _ _ _ _ _ _ Hrun)) _).
  vm_compute. reflexivity.
Defined.

(** *** Serializing, then reading the nulstr without its size *)

(** The bytes written by a successful serialization form a nulstr with an
    end marker, whose strings are the elements before the first empty
    one. *)
Lemma strv_make_nulstr_nulstr l h r m n h1 :
  strv_make_nulstr l h = Ok (r, Some (m, n)) h1 →
  well_ended (written (cells m)) ∧
  nulstr_strings (written (cells m))
  = until_empty (cstr_val <$> default [] l).
Proof.
  intros Hmake.
  destruct (strv_make_nulstr_stored _ _ _ _ _ _ Hmake) as (_ & ->).
  destruct (terminated_payload (default [] l)
              (if decide (default [] l = []) then [NUL] else []))
    as [H1 H2].
  done.
Qed.

(** X7.  The unbounded parser run on the buffer of a successful
    serialization returns, and a vector that it returns holds the elements
    of the serialized vector up to its first empty string; it holds all of
    them, in order, when no element is empty or holds a NUL byte. *)
Theorem strv_make_split_roundtrip l h m n h1 :
  strv_make_nulstr l h = Ok (0%Z, Some (m, n)) h1 →
  (∃ r h2, strv_split_nulstr (Some (written (cells m))) h1 = Ok r h2) ∧
  (∀ r h2,
     strv_split_nulstr (Some (written (cells m))) h1 = Ok (Some r) h2 →
     strv_elems r = until_empty (cstr_val <$> default [] l) ∧
     (Forall (fun x => x ≠ [] ∧ NUL ∉ x) (default [] l) →
      strv_elems r = default [] l)).
Proof.
  intros Hmake.
  destruct (strv_make_nulstr_nulstr _ _ _ _ _ _ Hmake) as [Hend Hstrs].
  split.
  - apply strv_split_nulstr_returns. by intros bs [= <-].
  - intros r h2 Hrun.
    destruct (strv_split_nulstr_elems _ _ _ _ Hrun) as (_ & _ & -> & _).
    change (default [] (Some (written (cells m)))) with (written (cells m)).
    rewrite Hstrs. split; [done|]. intros Hall.
    rewrite cstr_val_all by (eapply Forall_impl; [exact Hall|]; naive_solver).
    apply until_empty_fixed.
    eapply Forall_impl; [exact Hall|]. naive_solver.
Qed.

Lemma strv_make_split_roundtrip_witness :
  let v := [["a"%byte]; ["b"%byte; "c"%byte]] in
  ∃ m n h1 r h2,
    strv_make_nulstr (Some v) generous = Ok (0%Z, Some (m, n)) h1 ∧
    strv_split_nulstr (Some (written (cells m))) h1 = Ok (Some r) h2 ∧
    strv_elems r = v.
Proof.
  intros v.
  assert (Forall (fun x => x ≠ [] ∧ NUL ∉ x) (default [] (Some v))) as Hv.
  { refine (bool_decide_unpack _ _). vm_compute. exact I. }
  eexists _, _, _, _, _.
  split; [vm_compute; reflexivity|].
  split; [vm_compute; reflexivity|].
  refine (proj2 (proj2 (strv_make_split_roundtrip (Some v) generous _ _ _ _)
                   _ _ _) Hv);
    vm_compute; reflexivity.
Defined.

(** X8.  The lookup run on the buffer of a successful serialization returns
    and leaves the allocator as it was; it finds the needle exactly when the
    needle is one of the elements of the serialized vector before its first
    empty string. *)
Theorem strv_make_nulstr_get l h m n h1 needle :
  strv_make_nulstr l h = Ok (0%Z, Some (m, n)) h1 →
  ∃ r,
    nulstr_get (Some (written (cells m))) needle h1 = Ok r h1 ∧
    (is_Some r ↔ cstr_val needle ∈ until_empty (cstr_val <$> default [] l)).
Proof.
  intros Hmake.
  destruct (strv_make_nulstr_nulstr _ _ _ _ _ _ Hmake) as [Hend Hstrs].
  destruct (nulstr_get_returns _ needle h1 Hend) as [r Hrun].
  exists r. split; [done|]. rewrite <-Hstrs. by eapply nulstr_get_found.
Qed.

Lemma strv_make_nulstr_get_witness :
  let v := [["a"%byte]; ["b"%byte; "c"%byte]] in
  ∃ m n h1 r,
    strv_make_nulstr (Some v) generous = Ok (0%Z, Some (m, n)) h1 ∧
    nulstr_get (Some (written (cells m))) ["b"%byte; "c"%byte] h1 = Ok r h1 ∧
    (is_Some r ↔ ["b"%byte; "c"%byte] ∈ v).
Proof.
  intros v.
  assert (strv_make_nulstr (Some v) generous
          = Ok (0%Z,
                Some (Chars 1 (Some <$> ["a"%byte; NUL; "b"%byte; "c"%byte;
                                         NUL; NUL]), 5))
              (Heap {[1]} 2 (oracle generous))) as Hmake.
  { vm_compute. reflexivity. }
  destruct (strv_make_nulstr_get _ _ _ _ _ ["b"%byte; "c"%byte] Hmake)
    as (r & Hrun & Hfound).
  eexists _, _, _, r. split; [exact Hmake|]. split; [exact Hrun|exact Hfound].
Defined.

(** X9.  The lookup never finds the empty string: an empty segment is the
    end marker, at which the iteration stops before the comparison. *)
Theorem nulstr_get_empty_needle nulstr needle h r h' :
  strlen needle = 0 →
  nulstr_get nulstr needle h = Ok r h' →
  r = None.
Proof.
  intros Hz Hrun. destruct nulstr as [s|].
  - destruct r as [i|]; [|done].
    pose proof (proj1 (nulstr_get_found _ _ _ _ _ Hrun) (mk_is_Some _ _ eq_refl))
      as Hin.
    unfold cstr_val in Hin. rewrite Hz in Hin. simpl in Hin.
    pose proof (until_empty_nonempty (terminated s)) as Hne.
    by destruct (proj1 (Forall_forall _ _) Hne _ Hin).
  - by injection Hrun as <- <-.
Qed.

Lemma nulstr_get_empty_needle_witness :
  ∃ r h',
    nulstr_get (Some ["a"%byte; NUL; NUL; "b"%byte; NUL; NUL]) [] generous
    = Ok r h' ∧ r = None.
Proof.
  eexists _, _.
  refine ((fun Hrun =>
             conj Hrun (nulstr_get_empty_needle _ [] _ _ _ eq_refl Hrun)) _).
  vm_compute. reflexivity.
Defined.

(** X10.  The lookup and the unbounded parser agree: on the same nulstr, the
    lookup finds the needle exactly when the needle is an element of the
    vector that the parser returns. *)
Theorem nulstr_get_split_agree s needle h v h' h1 r h1' :
  strv_split_nulstr s h = Ok (Some v) h' →
  nulstr_get s needle h1 = Ok r h1' →
  is_Some r ↔ cstr_val needle ∈ strv_elems v.
Proof.
  intros Hsplit Hget.
  destruct (strv_split_nulstr_elems _ _ _ _ Hsplit) as (_ & _ & -> & _).
  destruct s as [bs|].
  - by eapply nulstr_get_found.
  - injection Hget as <- <-. simpl. split; [by intros [? [=]]|].
    by intros ?%elem_of_nil.
Qed.

Lemma nulstr_get_split_agree_witness :
  let s := Some ["a"%byte; NUL; "b"%byte; "c"%byte; NUL; NUL] in
  ∃ v h' r h1',
    strv_split_nulstr s generous = Ok (Some v) h' ∧
    nulstr_get s ["b"%byte; "c"%byte] generous = Ok r h1' ∧
    (is_Some r ↔ ["b"%byte; "c"%byte] ∈ strv_elems v).
Proof.
  intros s. eexists _, _, _, _.
  split; [vm_compute; reflexivity|].
  split; [vm_compute; reflexivity|].
  refine (nulstr_get_split_agree s ["b"%byte; "c"%byte] generous _ _
            generous _ _ _ _);
    vm_compute; reflexivity.
Defined.

(** X11.  For the bounded parser a NUL that follows the last string is its
    terminator and adds no element: when [s[l-1]] is not NUL and [s[l]] is
    NUL, the parser returns the same elements for the lengths [l] and
    [l + 1]. *)
Theorem strv_parse_nulstr_terminator (bs : list byte) l h v h' h1 v1 h1' :
  0 < l → bs !! (l - 1) ≠ Some NUL → bs !! l = Some NUL →
  strv_parse_nulstr (Some bs) l h = Ok (Some v) h' →
  strv_parse_nulstr (Some bs) (l + 1) h1 = Ok (Some v1) h1' →
  strv_elems v1 = strv_elems v.
Proof.
  intros H0 Hlast Hnul Hrun Hrun1.
  destruct (strv_parse_nulstr_elems _ _ _ _ _ Hrun) as (Hl & _ & _ & ->).
  destruct (strv_parse_nulstr_elems _ _ _ _ _ Hrun1) as (_ & _ & _ & ->).
  change (default [] (Some bs)) with bs in *.
  replace (l + 1) with (S l) by lia.
  rewrite (take_S_r _ _ _ Hnul). apply segments_snoc_nul.
  rewrite open_tail_decide by done. rewrite decide_True; done.
Qed.

Lemma strv_parse_nulstr_terminator_witness :
  let bs := ["a"%byte; NUL; "b"%byte; NUL] in
  ∃ v h' v1 h1',
    strv_parse_nulstr (Some bs) 3 generous = Ok (Some v) h' ∧
    strv_parse_nulstr (Some bs) (3 + 1) generous = Ok (Some v1) h1' ∧
    strv_elems v1 = strv_elems v.
Proof.
  intros bs. eexists _, _, _, _.
  split; [vm_compute; reflexivity|].
  split; [vm_compute; reflexivity|].
  refine (strv_parse_nulstr_terminator bs 3 generous _ _ generous _ _
            _ _ _ _ _).
  - lia.
  - vm_compute. congruence.
  - reflexivity.
  - vm_compute. reflexivity.
  - vm_compute. reflexivity.
Defined.

(** *** Bytes that are not read *)

Lemma count_nuls_app s t p k c h :
  p + k ≤ length s → count_nuls (s ++ t) p k c h = count_nuls s p k c h.
Proof.
  revert p c. induction k as [|k IH]; intros p c Hp; [done|].
  cbn [count_nuls]. unfold bind, load.
  rewrite lookup_app_l by lia.
  destruct (s !! p) as [b|]; [|done]. unfold ret. apply IH. lia.
Qed.

Lemma fill_app s t l fuel :
  l ≤ length s →
  ∀ p i v h, fill fuel (s ++ t) l p i v h = fill fuel s l p i v h.
Proof.
  intros Hl. induction fuel as [|fuel IH]; intros p i v h; [done|].
  cbn [fill]. destruct (decide (p < l)) as [Hp|Hp]; [|done].
  unfold bind.
  rewrite (window_run (s ++ t)) by (rewrite ?length_app; lia).
  rewrite (window_run s) by lia.
  rewrite take_app_le by done.
  destruct (memdup_suffix0 _ h) as [x h1| |]; [|done|done].
  destruct (store_slot v i x h1) as [v' h2| |]; [|done|done].
  destruct x as [x|]; [|done].
  destruct (find_nul _) as [k|]; [|done]. apply IH.
Qed.

(** X12.  The bounded parser reads no byte at or after [s + l]: bytes that
    follow the first [l] bytes of the object change nothing of the run. *)
Theorem strv_parse_nulstr_window (s t : list byte) l h :
  l ≤ length s →
  strv_parse_nulstr (Some (s ++ t)) l h = strv_parse_nulstr (Some s) l h.
Proof.
  intros Hl. unfold strv_parse_nulstr, bind.
  rewrite !bool_decide_eq_true_2 by (left; eauto). cbn [assert ret].
  destruct (decide (l ≤ 0)) as [H0|H0]; [done|].
  change (default [] (Some (s ++ t))) with (s ++ t).
  change (default [] (Some s)) with s.
  rewrite count_nuls_app by lia.
  destruct (count_nuls s 0 l 0 h) as [c h1| |]; [|done|done].
  unfold load. rewrite lookup_app_l by lia.
  destruct (s !! (l - 1)) as [b|]; [|done]. unfold ret.
  destruct (new0_ptrs _ h1) as [[v|] h2| |]; [|done|done|done].
  by rewrite fill_app.
Qed.

Lemma strv_parse_nulstr_window_witness :
  strv_parse_nulstr (Some (["a"%byte; NUL; "b"%byte] ++ ["c"%byte; NUL])) 3
    generous
  = strv_parse_nulstr (Some ["a"%byte; NUL; "b"%byte]) 3 generous.
Proof.
  apply (strv_parse_nulstr_window ["a"%byte; NUL; "b"%byte]
           ["c"%byte; NUL] 3 generous).
  simpl. lia.
Defined.

(** X13.  The lookup and the unbounded parser read no byte after the end
    marker: on a nulstr with an end marker, bytes that follow the object
    change nothing of the lookup, and the parser returns the same
    elements. *)
Theorem nulstr_end_marker_hides (s t : list byte) :
  well_ended s →
  (∀ needle h,
     nulstr_get (Some (s ++ t)) needle h = nulstr_get (Some s) needle h) ∧
  (∀ h v h' h1 v1 h1',
     strv_split_nulstr (Some s) h = Ok (Some v) h' →
     strv_split_nulstr (Some (s ++ t)) h1 = Ok (Some v1) h1' →
     strv_elems v1 = strv_elems v).
Proof.
  intros Hs. destruct (nulstr_strings_app s t Hs) as [Hstrs Hend]. split.
  - intros needle h.
    destruct (nulstr_get_returns s needle h Hs) as [r Hr].
    destruct (nulstr_get_returns (s ++ t) needle h Hend) as [r1 Hr1].
    rewrite Hr, Hr1. f_equal.
    pose proof (wp_Ok _ _ _ _ _ _ (wp_nulstr_get (Some s) needle h) Hr)
      as [_ Hp].
    pose proof (wp_Ok _ _ _ _ _ _ (wp_nulstr_get (Some (s ++ t)) needle h) Hr1)
      as [_ Hp1].
    rewrite Hstrs in Hp1.
    destruct (first_match needle (nulstr_strings s)) as [[k x]|].
    + congruence.
    + destruct Hp, Hp1. congruence.
  - intros h v h' h1 v1 h1' Hrun Hrun1.
    destruct (strv_split_nulstr_elems _ _ _ _ Hrun) as (_ & _ & -> & _).
    destruct (strv_split_nulstr_elems _ _ _ _ Hrun1) as (_ & _ & -> & _).
    done.
Qed.

Lemma nulstr_end_marker_hides_witness :
  let s := ["a"%byte; NUL; NUL] in
  let t := ["b"%byte; NUL; NUL] in
  nulstr_get (Some (s ++ t)) ["b"%byte] generous
  = nulstr_get (Some s) ["b"%byte] generous.
Proof.
  intros s t.
  refine (proj1 (nulstr_end_marker_hides s t _) ["b"%byte] generous).
  refine (bool_decide_unpack _ _). vm_compute. exact I.
Defined.

Lemma length_payload_no_nul v :
  Forall (fun x => NUL ∉ x) v →
  length (payload v) = sum_list_with (fun x => length x + 1) v.
Proof.
  intros Hv. rewrite length_payload.
  induction Hv as [|x v Hx _ IH]; [done|]. simpl.
  rewrite <-length_cstr_val, cstr_val_id by done. by rewrite IH.
Qed.

(** X14.  The two parsers agree up to the end marker: when the unbounded
    parser returns a vector, the bytes of its elements and their
    terminators, [n] in number, lie inside the nulstr and are followed by
    the NUL of the end marker, and the bounded parser run with the length
    [n] returns the same elements. *)
Theorem strv_split_parse_agree (s : list byte) h v h' :
  strv_split_nulstr (Some s) h = Ok (Some v) h' →
  let n := sum_list_with (fun x => length x + 1) (strv_elems v) in
  s !! n = Some NUL ∧
  ∀ h1 v1 h1',
    strv_parse_nulstr (Some s) n h1 = Ok (Some v1) h1' →
    strv_elems v1 = strv_elems v.
Proof.
  intros Hrun n.
  destruct (strv_split_nulstr_elems _ _ _ _ Hrun) as (_ & _ & He & Hend).
  change (default [] (Some s)) with s in He.
  destruct (well_ended_split s (Hend s eq_refl)) as (Hall & rest & Hs).
  rewrite <-He in Hall, Hs.
  assert (n = length (payload (strv_elems v))) as Hn
    by (by rewrite length_payload_no_nul).
  split.
  - rewrite Hs, Hn. by rewrite list_lookup_middle.
  - intros h1 v1 h1' Hrun1.
    destruct (strv_parse_nulstr_elems _ _ _ _ _ Hrun1) as (_ & _ & _ & ->).
    change (default [] (Some s)) with s.
    rewrite Hs at 1. rewrite take_app_length' by done.
    by rewrite segments_payload, cstr_val_all.
Qed.

Lemma strv_split_parse_agree_witness :
  let s := ["a"%byte; NUL; "b"%byte; "c"%byte; NUL; NUL; "d"%byte; NUL] in
  ∃ v h' v1 h1',
    strv_split_nulstr (Some s) generous = Ok (Some v) h' ∧
    s !! 5 = Some NUL ∧
    strv_parse_nulstr (Some s) 5 generous = Ok (Some v1) h1' ∧
    strv_elems v1 = strv_elems v.
Proof.
  intros s.
  assert (strv_split_nulstr (Some s) generous
          = Ok (Some (Strv 3 [Some (Chars 0 [Some "a"%byte; Some NUL]);
                             Some (Chars 2 [Some "b"%byte; Some "c"%byte;
                                            Some NUL]);
                             None]))
              (Heap (list_to_set [0; 2; 3]) 4 (oracle generous))) as Hrun.
  { vm_compute. reflexivity. }
  destruct (strv_split_parse_agree s generous _ _ Hrun) as [Hnul Hparse].
  eexists _, _, _, _.
  split; [exact Hrun|]. split; [exact Hnul|].
  refine ((fun H => conj H (Hparse generous _ _ H)) _).
  vm_compute. reflexivity.
Defined.

(** X15.  A vector returned by the unbounded parser is empty exactly when
    the nulstr is the null pointer or starts with a NUL byte. *)
Theorem strv_split_nulstr_empty_iff s h v h' :
  strv_split_nulstr s h = Ok (Some v) h' →
  strv_elems v = [] ↔ s = None ∨ ∃ rest, s = Some (NUL :: rest).
Proof.
  intros Hrun.
  destruct (strv_split_nulstr_elems _ _ _ _ Hrun) as (_ & _ & -> & Hend).
  destruct s as [bs|]; [|by split; [left|]].
  specialize (Hend bs eq_refl).
  change (default [] (Some bs)) with bs.
  unfold nulstr_strings, well_ended in *.
  destruct bs as [|b bs].
  { by apply elem_of_nil in Hend. }
  cbn [terminated] in *. destruct (decide (b = NUL)) as [->|Hb].
  - split; [intros _; right; by eexists|done].
  - destruct (terminated bs) as [|x r]; [by apply elem_of_nil in Hend|].
    cbn [until_empty]. rewrite decide_False by done.
    split; [done|]. intros [[=]|[rest [= -> _]]]. done.
Qed.

Lemma strv_split_nulstr_empty_iff_witness :
  ∃ v h',
    strv_split_nulstr (Some [NUL; "a"%byte; NUL; NUL]) generous
    = Ok (Some v) h' ∧
    (strv_elems v = [] ↔
     Some [NUL; "a"%byte; NUL; NUL] = None ∨
     ∃ rest, Some [NUL; "a"%byte; NUL; NUL] = Some (NUL :: rest)).
Proof.
  eexists _, _.
  refine ((fun Hrun =>
             conj Hrun (strv_split_nulstr_empty_iff _ _ _ _ Hrun)) _).
  vm_compute. reflexivity.
Defined.
